(** * A shallow embedding of the eBPF interpreter of [main.go]

    The development follows the Go source function by function:
    the instruction record and the machine state, the bounds-checked
    memory helpers ([storeWord] ... [loadDoubleWord]), the opcode
    dispatch [Execute], and the decode and fetch-execute loops of
    [Interpret].

    Conventions of the embedding.
    - Go's fixed-width integers are values of [Z] kept in range by the
      conversions [int8] ... [int64] and [uint8] ... [uint64], which
      write out the two's-complement wrap-around of the language.
      Go's [int] is taken to be 64 bits wide.
    - A [byte] is the 256-constructor type of the standard library;
      the opcode field, a [uint8] only ever compared with constants,
      is kept as a [byte], while the register selectors, which index
      the register array, are numbers of [N].
    - A run-time panic of Go (index out of range, slice bounds out of
      range, integer divide by zero) is the [Panic] result of the
      [Res] monad; an [error] value returned by a function is data,
      [None] standing for [nil].
    - Console output ([fmt.Println]) is not modelled. *)

From Stdlib Require Import ZArith NArith Lia String.
From Stdlib Require Import Strings.Byte.
From Equations Require Import Equations.
From stdpp Require Import base option list.

Local Open Scope Z_scope.

(** ** Fixed-width integers *)

Module Int.

(** Reinterpretation of an integer as an unsigned [bits]-bit value. *)
Definition unsigned (bits z : Z) : Z := z mod 2 ^ bits.

(** Reinterpretation of an integer as a signed [bits]-bit value. *)
Definition signed (bits z : Z) : Z :=
  (z + 2 ^ (bits - 1)) mod 2 ^ bits - 2 ^ (bits - 1).

Definition uint8 := unsigned 8.
Definition uint16 := unsigned 16.
Definition uint32 := unsigned 32.
Definition uint64 := unsigned 64.
Definition int8 := signed 8.
Definition int16 := signed 16.
Definition int32 := signed 32.
Definition int64 := signed 64.

Definition min_int64 : Z := - 2 ^ 63.
Definition max_int64 : Z := 2 ^ 63 - 1.

Definition in_int64 (z : Z) : Prop := min_int64 <= z <= max_int64.
Definition in_int32 (z : Z) : Prop := - 2 ^ 31 <= z < 2 ^ 31.

(** [x << c] on an [int64] with an unsigned count: counts of 64 and
    more shift every bit out. *)
Definition shl64 (x c : Z) : Z :=
  if 64 <=? c then 0 else int64 (Z.shiftl x c).

(** [x >> c] on an [int64]: the signed operand makes it an arithmetic
    shift, which leaves only copies of the sign bit once the count
    reaches 64. *)
Definition sar64 (x c : Z) : Z :=
  if 64 <=? c then (if x <? 0 then -1 else 0) else Z.shiftr x c.

(** [int64(uint64(x) >> c)]: the shift is done on the unsigned
    reinterpretation, so zeros enter from the left. *)
Definition shr64_via_uint64 (x c : Z) : Z :=
  int64 (if 64 <=? c then 0 else Z.shiftr (uint64 x) c).

End Int.
Import Int.

(** ** Bytes *)

Definition byte_val (b : byte) : Z := Z.of_N (Byte.to_N b).

(** [byte(v)]: the low eight bits of [v]. *)
Definition byte_of (v : Z) : byte :=
  default x00 (Byte.of_N (Z.to_N (uint8 v))).

(** ** Results: a value, or a run-time panic *)

Inductive panic : Type :=
| IndexOutOfRange
| SliceBoundsOutOfRange
| IntegerDivideByZero.

Inductive Res (A : Type) : Type :=
| Ok (a : A)
| Panic (p : panic).
Arguments Ok {A} a.
Arguments Panic {A} p.

#[global] Instance Res_ret : MRet Res := fun A a => Ok a.
#[global] Instance Res_bind : MBind Res := fun A B f m =>
  match m with
  | Ok a => f a
  | Panic p => Panic p
  end.

(** The [error] interface, as built by [errors.New]: a message. *)
Definition error : Type := string.

Definition err_exit : error := "exit"%string.
Definition err_unsupported : error := "unsupported opcode"%string.
Definition err_out_of_bounds : error := "memory access out of bounds"%string.

(** ** Opcodes *)

(* 64-bit ALU instructions *)
Abbreviation ALU64_ADD_IMM := x07.
Abbreviation ALU64_ADD_REG := x0f.
Abbreviation ALU64_SUB_IMM := x17.
Abbreviation ALU64_SUB_REG := x1f.
Abbreviation ALU64_MUL_IMM := x27.
Abbreviation ALU64_MUL_REG := x2f.
Abbreviation ALU64_DIV_IMM := x37.
Abbreviation ALU64_DIV_REG := x3f.
Abbreviation ALU64_OR_IMM := x47.
Abbreviation ALU64_OR_REG := x4f.
Abbreviation ALU64_AND_IMM := x57.
Abbreviation ALU64_AND_REG := x5f.
Abbreviation ALU64_LSH_IMM := x67.
Abbreviation ALU64_LSH_REG := x6f.
Abbreviation ALU64_RSH_IMM := x77.
Abbreviation ALU64_RSH_REG := x7f.
Abbreviation ALU64_NEG := x87.
Abbreviation ALU64_MOD_IMM := x97.
Abbreviation ALU64_MOD_REG := x9f.
Abbreviation ALU64_XOR_IMM := xa7.
Abbreviation ALU64_XOR_REG := xaf.
Abbreviation ALU64_MOV_IMM := xb7.
Abbreviation ALU64_MOV_REG := xbf.
Abbreviation ALU64_ARSH_IMM := xc7.
Abbreviation ALU64_ARSH_REG := xcf.

(* Memory instructions (those that [Execute] dispatches) *)
Abbreviation MEM_LDDW := x18.
Abbreviation MEM_LDXW := x61.
Abbreviation MEM_LDXH := x69.
Abbreviation MEM_LDXB := x71.
Abbreviation MEM_LDXDW := x79.
Abbreviation MEM_STW := x62.
Abbreviation MEM_STH := x6a.
Abbreviation MEM_STB := x72.
Abbreviation MEM_STDW := x7a.
Abbreviation MEM_STXW := x63.
Abbreviation MEM_STXH := x6b.
Abbreviation MEM_STXB := x73.
Abbreviation MEM_STXDW := x7b.

(* Branch instructions *)
Abbreviation BRANCH_JA := x05.
Abbreviation BRANCH_JEQ_IMM := x15.
Abbreviation BRANCH_JEQ_REG := x1d.
Abbreviation BRANCH_JGT_IMM := x25.
Abbreviation BRANCH_JGT_REG := x2d.
Abbreviation BRANCH_JGE_IMM := x35.
Abbreviation BRANCH_JGE_REG := x3d.
Abbreviation BRANCH_JLT_IMM := xa5.
Abbreviation BRANCH_JLT_REG := xad.
Abbreviation BRANCH_JLE_IMM := xb5.
Abbreviation BRANCH_JLE_REG := xbd.
Abbreviation BRANCH_JSET_IMM := x45.
Abbreviation BRANCH_JSET_REG := x4d.
Abbreviation BRANCH_JNE_IMM := x55.
Abbreviation BRANCH_JNE_REG := x5d.
Abbreviation BRANCH_JSGT_IMM := x65.
Abbreviation BRANCH_JSGT_REG := x6d.
Abbreviation BRANCH_JSGE_IMM := x75.
Abbreviation BRANCH_JSGE_REG := x7d.
Abbreviation BRANCH_JSLT_IMM := xc5.
Abbreviation BRANCH_JSLT_REG := xcd.
Abbreviation BRANCH_JSLE_IMM := xd5.
Abbreviation BRANCH_JSLE_REG := xdd.
Abbreviation BRANCH_CALL := x85.
Abbreviation BRANCH_EXIT := x95.

(** ** The instruction record and the machine state *)

Record Instruction : Type := mkInstruction {
  Opcode : byte;   (* uint8 *)
  Dst : N;         (* uint8 *)
  Src : N;         (* uint8 *)
  Offset : Z;      (* int16 *)
  Imm : Z          (* int32 *)
}.

Record State : Type := mkState {
  Memory : list byte;
  Regs : list Z;   (* [11]int64 *)
  PC : Z           (* int *)
}.

Definition NumRegs : nat := 11.
Definition MemorySize : Z := 65536.

(** [State{}]: nil memory, zeroed registers, program counter 0. *)
Definition zero_State : State :=
  {| Memory := []; Regs := replicate NumRegs 0; PC := 0 |}.

Definition NewState : State :=
  {| Memory := replicate (Z.to_nat MemorySize) x00; Regs := replicate NumRegs 0; PC := 0 |}.

Definition mem_len (s : State) : Z := Z.of_nat (length (Memory s)).

(** What the types of the fields guarantee: the array has its eleven
    entries, and the length of a slice is an [int]. *)
Definition wf_State (s : State) : Prop :=
  length (Regs s) = NumRegs /\ mem_len s <= max_int64.

Definition set_Memory (s : State) (m : list byte) : State :=
  {| Memory := m; Regs := Regs s; PC := PC s |}.
Definition set_Regs (s : State) (r : list Z) : State :=
  {| Memory := Memory s; Regs := r; PC := PC s |}.
Definition set_PC (s : State) (pc : Z) : State :=
  {| Memory := Memory s; Regs := Regs s; PC := pc |}.

(** [s.Regs[i]] as an operand: panics when [i] is not an index of the
    array. *)
Definition get_reg (s : State) (i : N) : Res Z :=
  match Regs s !! N.to_nat i with
  | Some v => Ok v
  | None => Panic IndexOutOfRange
  end.

(** [s.Regs[i] = v]. *)
Definition put_reg (s : State) (i : N) (v : Z) : Res State :=
  if decide (N.to_nat i < length (Regs s))%nat
  then Ok (set_Regs s (<[N.to_nat i := v]> (Regs s)))
  else Panic IndexOutOfRange.

(** ** Little-endian access to a byte slice ([encoding/binary]) *)

(** The [n] bytes from index [a] on, least significant first. *)
Fixpoint get_le (n : nat) (mem : list byte) (a : nat) : Z :=
  match n with
  | O => 0
  | S n' => byte_val (default x00 (mem !! a)) + 256 * get_le n' mem (S a)
  end.

(** Writes the [n] low bytes of [v] from index [a] on, least
    significant first. *)
Fixpoint put_le (n : nat) (mem : list byte) (a : nat) (v : Z) : list byte :=
  match n with
  | O => mem
  | S n' => put_le n' (<[a := byte_of v]> mem) (S a) (Z.shiftr v 8)
  end.

(** ** Memory helpers *)

(** The slice expression [s.Memory[lo:hi]] panics unless
    [0 <= lo <= hi <= cap]; the capacity of the buffer is its length. *)
Definition slice_ok (s : State) (lo hi : Z) : Res unit :=
  if (0 <=? lo) && (lo <=? hi) && (hi <=? mem_len s)
  then Ok tt else Panic SliceBoundsOutOfRange.

(** The index expression [s.Memory[i]]. *)
Definition index_ok (s : State) (i : Z) : Res unit :=
  if (0 <=? i) && (i <? mem_len s)
  then Ok tt else Panic IndexOutOfRange.

(** [binary.LittleEndian.PutUintN(s.Memory[lo:hi], v)] for a width of
    [n] bytes. *)
Definition PutUint (n : nat) (s : State) (lo hi v : Z) : Res State :=
  _ ← slice_ok s lo hi;
  Ok (set_Memory s (put_le n (Memory s) (Z.to_nat lo) v)).

(** [binary.LittleEndian.UintN(s.Memory[lo:hi])]. *)
Definition Uint (n : nat) (s : State) (lo hi : Z) : Res Z :=
  _ ← slice_ok s lo hi;
  Ok (get_le n (Memory s) (Z.to_nat lo)).

Definition storeWord (s : State) (address value : Z)
  : Res (State * option error) :=
  if (address <? 0) || (mem_len s <? int64 (address + 4))
  then Ok (s, Some err_out_of_bounds)
  else
    s' ← PutUint 4 s address (int64 (address + 4)) (uint32 value);
    Ok (s', None).

Definition storeHalfWord (s : State) (address value : Z)
  : Res (State * option error) :=
  if (address <? 0) || (mem_len s <? int64 (address + 2))
  then Ok (s, Some err_out_of_bounds)
  else
    s' ← PutUint 2 s address (int64 (address + 2)) (uint16 value);
    Ok (s', None).

Definition storeByte (s : State) (address value : Z)
  : Res (State * option error) :=
  if (address <? 0) || (mem_len s <? int64 (address + 1))
  then Ok (s, Some err_out_of_bounds)
  else
    _ ← index_ok s address;
    Ok (set_Memory s (<[Z.to_nat address := byte_of value]> (Memory s)), None).

Definition storeDoubleWord (s : State) (address value : Z)
  : Res (State * option error) :=
  if (address <? 0) || (mem_len s <? int64 (address + 8))
  then Ok (s, Some err_out_of_bounds)
  else
    s' ← PutUint 8 s address (int64 (address + 8)) (uint64 value);
    Ok (s', None).

Definition loadWord (s : State) (address : Z) : Res Z :=
  if (address <? 0) || (mem_len s <? int64 (address + 4))
  then Ok 0
  else
    u ← Uint 4 s address (int64 (address + 4));
    Ok (int64 u).

Definition loadHalfWord (s : State) (address : Z) : Res Z :=
  if (address <? 0) || (mem_len s <? int64 (address + 2))
  then Ok 0
  else
    u ← Uint 2 s address (int64 (address + 2));
    Ok (int64 (int16 u)).

Definition loadByte (s : State) (address : Z) : Res Z :=
  if (address <? 0) || (mem_len s <? int64 (address + 1))
  then Ok 0
  else
    _ ← index_ok s address;
    Ok (int64 (int8 (byte_val (default x00 (Memory s !! Z.to_nat address))))).

Definition loadDoubleWord (s : State) (address : Z) : Res Z :=
  if (address <? 0) || (mem_len s <? int64 (address + 8))
  then Ok 0
  else
    u ← Uint 8 s address (int64 (address + 8));
    Ok (int64 u).

(** ** Execute: one instruction *)

(** [s.Regs[dst] op= y]: the register is read, the operation applied,
    the result stored back. *)
Definition assign_op (s : State) (dst : N) (op : Z -> Z -> Res Z) (y : Res Z)
  : Res (State * option error) :=
  x ← get_reg s dst;
  y ← y;
  v ← op x y;
  s' ← put_reg s dst v;
  Ok (s', None).

(** [s.Regs[dst] = v]. *)
Definition assign (s : State) (dst : N) (v : Res Z)
  : Res (State * option error) :=
  v ← v;
  s' ← put_reg s dst v;
  Ok (s', None).

(** [if cond { s.PC += int(instr.Offset) }]. *)
Definition branch (s : State) (offset : Z) (cond : Res bool)
  : Res (State * option error) :=
  c ← cond;
  Ok (if c : bool then set_PC s (int64 (PC s + offset)) else s, None).

(** A call to a store helper as a statement: the returned error is
    discarded. *)
Definition discard_error (r : Res (State * option error))
  : Res (State * option error) :=
  '(s', _) ← r;
  Ok (s', None).

Definition pure2 (f : Z -> Z -> Z) (x y : Z) : Res Z := Ok (f x y).

(** Integer quotient and remainder truncate towards zero and panic on
    a zero divisor. *)
Definition quo (x y : Z) : Res Z :=
  if y =? 0 then Panic IntegerDivideByZero else Ok (int64 (Z.quot x y)).
Definition rem (x y : Z) : Res Z :=
  if y =? 0 then Panic IntegerDivideByZero else Ok (int64 (Z.rem x y)).

Definition cmp2 (f : Z -> Z -> bool) (x y : Res Z) : Res bool :=
  x ← x; y ← y; Ok (f x y).

Definition Execute (s : State) (instr : Instruction)
  : Res (State * option error) :=
  let dst := Dst instr in
  let src := Src instr in
  let imm := Ok (int64 (Imm instr)) in
  let uimm := Ok (uint64 (Imm instr)) in
  let rsrc := get_reg s src in
  let usrc := (y ← get_reg s src; Ok (uint64 y)) in
  let rdst := get_reg s dst in
  let off := int64 (Offset instr) in
  match Opcode instr with
  | ALU64_ADD_IMM => assign_op s dst (pure2 (fun x y => int64 (x + y))) imm
  | ALU64_ADD_REG => assign_op s dst (pure2 (fun x y => int64 (x + y))) rsrc
  | ALU64_SUB_IMM => assign_op s dst (pure2 (fun x y => int64 (x - y))) imm
  | ALU64_SUB_REG => assign_op s dst (pure2 (fun x y => int64 (x - y))) rsrc
  | ALU64_MUL_IMM => assign_op s dst (pure2 (fun x y => int64 (x * y))) imm
  | ALU64_MUL_REG => Ok (s, None)
  | ALU64_DIV_IMM => assign_op s dst quo imm
  | ALU64_DIV_REG => assign_op s dst quo rsrc
  | ALU64_OR_IMM => assign_op s dst (pure2 Z.lor) imm
  | ALU64_OR_REG => assign_op s dst (pure2 Z.lor) rsrc
  | ALU64_AND_IMM => assign_op s dst (pure2 Z.land) imm
  | ALU64_AND_REG => assign_op s dst (pure2 Z.land) rsrc
  | ALU64_LSH_IMM => assign_op s dst (pure2 shl64) uimm
  | ALU64_LSH_REG => assign_op s dst (pure2 shl64) usrc
  | ALU64_RSH_IMM => assign_op s dst (pure2 sar64) uimm
  | ALU64_RSH_REG => assign_op s dst (pure2 sar64) usrc
  | ALU64_NEG => assign s dst (x ← rdst; Ok (int64 (- x)))
  | ALU64_MOD_IMM => assign_op s dst rem imm
  | ALU64_MOD_REG => assign_op s dst rem rsrc
  | ALU64_XOR_IMM => assign_op s dst (pure2 Z.lxor) imm
  | ALU64_XOR_REG => assign_op s dst (pure2 Z.lxor) rsrc
  | ALU64_MOV_IMM => assign s dst imm
  | ALU64_MOV_REG => assign s dst rsrc
  | ALU64_ARSH_IMM =>
      assign s dst (x ← rdst; c ← uimm; Ok (shr64_via_uint64 x c))
  | ALU64_ARSH_REG =>
      assign s dst (x ← rdst; c ← usrc; Ok (shr64_via_uint64 x c))

  | MEM_LDDW => assign s dst imm
  | MEM_LDXW => assign s dst (a ← rsrc; loadWord s (int64 (a + off)))
  | MEM_LDXH => assign s dst (a ← rsrc; loadHalfWord s (int64 (a + off)))
  | MEM_LDXB => assign s dst (a ← rsrc; loadByte s (int64 (a + off)))
  | MEM_LDXDW => assign s dst (a ← rsrc; loadDoubleWord s (int64 (a + off)))
  | MEM_STW =>
      discard_error (a ← rdst; storeWord s (int64 (a + off)) (Imm instr))
  | MEM_STH =>
      discard_error
        (a ← rdst; storeHalfWord s (int64 (a + off)) (int16 (Imm instr)))
  | MEM_STB =>
      discard_error
        (a ← rdst; storeByte s (int64 (a + off)) (int8 (Imm instr)))
  | MEM_STDW =>
      discard_error
        (a ← rdst; storeDoubleWord s (int64 (a + off)) (int64 (Imm instr)))
  | MEM_STXW =>
      discard_error
        (a ← rdst; v ← rsrc; storeWord s (int64 (a + off)) (int32 v))
  | MEM_STXH =>
      discard_error
        (a ← rdst; v ← rsrc; storeHalfWord s (int64 (a + off)) (int16 v))
  | MEM_STXB =>
      discard_error
        (a ← rdst; v ← rsrc; storeByte s (int64 (a + off)) (int8 v))
  | MEM_STXDW =>
      discard_error
        (a ← rdst; v ← rsrc; storeDoubleWord s (int64 (a + off)) v)

  | BRANCH_JA => branch s off (Ok true)
  | BRANCH_JEQ_IMM => branch s off (cmp2 Z.eqb rdst imm)
  | BRANCH_JEQ_REG => branch s off (cmp2 Z.eqb rdst rsrc)
  | BRANCH_JGT_IMM => branch s off (cmp2 Z.gtb rdst imm)
  | BRANCH_JGT_REG => branch s off (cmp2 Z.gtb rdst rsrc)
  | BRANCH_JGE_IMM => branch s off (cmp2 Z.geb rdst imm)
  | BRANCH_JGE_REG => branch s off (cmp2 Z.geb rdst rsrc)
  | BRANCH_JLT_IMM => branch s off (cmp2 Z.ltb rdst imm)
  | BRANCH_JLT_REG => branch s off (cmp2 Z.ltb rdst rsrc)
  | BRANCH_JLE_IMM => branch s off (cmp2 Z.leb rdst imm)
  | BRANCH_JLE_REG => branch s off (cmp2 Z.leb rdst rsrc)
  | BRANCH_JSET_IMM =>
      branch s off (cmp2 (fun x y => negb (Z.land x y =? 0)) rdst imm)
  | BRANCH_JSET_REG =>
      branch s off (cmp2 (fun x y => negb (Z.land x y =? 0)) rdst rsrc)
  | BRANCH_JNE_IMM => branch s off (cmp2 (fun x y => negb (x =? y)) rdst imm)
  | BRANCH_JNE_REG => branch s off (cmp2 (fun x y => negb (x =? y)) rdst rsrc)
  | BRANCH_JSGT_IMM => branch s off (cmp2 Z.gtb rdst imm)
  | BRANCH_JSGT_REG => branch s off (cmp2 Z.gtb rdst rsrc)
  | BRANCH_JSGE_IMM => branch s off (cmp2 Z.geb rdst imm)
  | BRANCH_JSGE_REG => branch s off (cmp2 Z.geb rdst rsrc)
  | BRANCH_JSLT_IMM => branch s off (cmp2 Z.ltb rdst imm)
  | BRANCH_JSLT_REG => branch s off (cmp2 Z.ltb rdst rsrc)
  | BRANCH_JSLE_IMM => branch s off (cmp2 Z.leb rdst imm)
  | BRANCH_JSLE_REG => branch s off (cmp2 Z.leb rdst rsrc)
  | BRANCH_CALL =>
      s1 ← put_reg s 8 (int64 (int64 (PC s + 1)));
      Ok (set_PC s1 (int64 (PC s1 + off)), None)
  | BRANCH_EXIT => Ok (s, Some err_exit)

  | _ => Ok (s, Some err_unsupported)
  end.

(** ** Interpret: decoding, then the fetch-execute loop *)

(** The index expression [bytecode[i]]. *)
Definition byte_at (bytecode : list byte) (i : nat) : Res byte :=
  match bytecode !! i with
  | Some b => Ok b
  | None => Panic IndexOutOfRange
  end.

(** The composite literal built from the eight bytes of one slot. *)
Definition Instruction_of_bytes (b0 b1 b2 b3 b4 b5 b6 b7 : byte)
  : Instruction :=
  {| Opcode := b0;
     Dst := N.land (Byte.to_N b1) 0x0F;
     Src := N.land (N.shiftr (Byte.to_N b1) 4) 0x0F;
     Offset :=
       Z.lor (int16 (byte_val b2)) (int16 (Z.shiftl (int16 (byte_val b3)) 8));
     Imm :=
       Z.lor
         (Z.lor
            (Z.lor (int32 (byte_val b4))
                   (int32 (Z.shiftl (int32 (byte_val b5)) 8)))
            (int32 (Z.shiftl (int32 (byte_val b6)) 16)))
         (int32 (Z.shiftl (int32 (byte_val b7)) 24)) |}.

(** The literal of the loop body: its operands [bytecode[i]] ...
    [bytecode[i+7]] are evaluated in order, each one checked against
    the length of the input. *)
Definition decode_at (bytecode : list byte) (i : nat) : Res Instruction :=
  b0 ← byte_at bytecode i;
  b1 ← byte_at bytecode (i + 1);
  b2 ← byte_at bytecode (i + 2);
  b3 ← byte_at bytecode (i + 3);
  b4 ← byte_at bytecode (i + 4);
  b5 ← byte_at bytecode (i + 5);
  b6 ← byte_at bytecode (i + 6);
  b7 ← byte_at bytecode (i + 7);
  Ok (Instruction_of_bytes b0 b1 b2 b3 b4 b5 b6 b7).

(** [program[k] = insn]. *)
Definition put_insn (program : list Instruction) (k : nat) (insn : Instruction)
  : Res (list Instruction) :=
  if decide (k < length program)%nat
  then Ok (<[k := insn]> program)
  else Panic IndexOutOfRange.

(** [for i := ...; i < len(bytecode); i += 8 { ... }], entered with the
    current [i] and the program filled so far. *)
Equations? decode_loop (bytecode : list byte) (i : nat)
  (program : list Instruction) : Res (list Instruction)
  by wf (length bytecode - i)%nat lt :=
  decode_loop bytecode i program with decide (i < length bytecode)%nat => {
    | left _ =>
        match decode_at bytecode i with
        | Ok insn =>
            match put_insn program (i `div` 8)%nat insn with
            | Ok program' => decode_loop bytecode (i + 8)%nat program'
            | Panic p => Panic p
            end
        | Panic p => Panic p
        end
    | right _ => Ok program }.
Proof. lia. Qed.

Definition zero_Instruction : Instruction :=
  {| Opcode := x00; Dst := 0; Src := 0; Offset := 0; Imm := 0 |}.

(** The first half of [Interpret]:
    [make([]Instruction, len(bytecode)/8)] and the decoding loop. *)
Definition decode (bytecode : list byte) : Res (list Instruction) :=
  decode_loop bytecode 0
    (replicate (length bytecode `div` 8)%nat zero_Instruction).

(** How a run of [Interpret] ends.  The function itself returns
    nothing and prints the registers of the final state; the outcome
    records that state and why the loop was left. *)
Inductive outcome : Type :=
| Stopped (e : error) (s : State)   (* [Execute] returned [e]: break *)
| RanOff (s : State)                (* [state.PC < len(program)] is false *)
| Crashed (p : panic)               (* a run-time panic; nothing is printed *)
| OutOfFuel (s : State).            (* the step budget of the model ran out *)

(** The index expression [program[state.PC]]. *)
Definition fetch (program : list Instruction) (pc : Z) : Res Instruction :=
  if pc <? 0 then Panic IndexOutOfRange
  else match program !! Z.to_nat pc with
       | Some instr => Ok instr
       | None => Panic IndexOutOfRange
       end.

(** [for state.PC < len(program) { ... }], at most [fuel] iterations. *)
Fixpoint run (fuel : nat) (program : list Instruction) (s : State) : outcome :=
  if PC s <? Z.of_nat (length program) then
    match fuel with
    | O => OutOfFuel s
    | S fuel' =>
        match fetch program (PC s) with
        | Panic p => Crashed p
        | Ok instr =>
            match Execute s instr with
            | Panic p => Crashed p
            | Ok (s', Some e) => Stopped e s'
            | Ok (s', None) => run fuel' program (set_PC s' (int64 (PC s' + 1)))
            end
        end
    end
  else RanOff s.

Definition Interpret (fuel : nat) (bytecode : list byte) : outcome :=
  match decode bytecode with
  | Panic p => Crashed p
  | Ok program => run fuel program zero_State
  end.

(** The bytecode of [main]. *)
Definition main_bytecode : list byte :=
  [ ALU64_MOV_IMM; x01; x00; x00; x05; x00; x00; x00;
    ALU64_MOV_IMM; x02; x00; x00; x09; x00; x00; x00;
    ALU64_ADD_REG; x21; x02; x00; x00; x00; x00; x00;
    ALU64_MOV_REG; x10; x00; x00; x00; x00; x00; x00;
    ALU64_SUB_IMM; x00; x00; x00; x03; x00; x00; x00;
    BRANCH_EXIT; x00; x00; x00; x00; x00; x00; x00 ].


(** ** Vocabulary of the properties *)

(** The memory instructions that compute an effective address, with
    their direction and the number of bytes they access. *)
Inductive access : Type := Load | Store.

Definition mem_access (op : byte) : option (access * Z) :=
  match op with
  | MEM_LDXW => Some (Load, 4)
  | MEM_LDXH => Some (Load, 2)
  | MEM_LDXB => Some (Load, 1)
  | MEM_LDXDW => Some (Load, 8)
  | MEM_STW | MEM_STXW => Some (Store, 4)
  | MEM_STH | MEM_STXH => Some (Store, 2)
  | MEM_STB | MEM_STXB => Some (Store, 1)
  | MEM_STDW | MEM_STXDW => Some (Store, 8)
  | _ => None
  end.

(** The register that holds the base address: the source register of
    a load, the destination register of a store. *)
Definition base_reg (instr : Instruction) : N :=
  match mem_access (Opcode instr) with
  | Some (Load, _) => Src instr
  | _ => Dst instr
  end.

(** Base register value plus instruction offset, in [int64]. *)
Definition effective_address (s : State) (instr : Instruction) : Res Z :=
  a ← get_reg s (base_reg instr);
  Ok (int64 (a + int64 (Offset instr))).

(** The store helper for a given width. *)
Definition store_helper (width : Z) : State -> Z -> Z -> Res (State * option error) :=
  if width =? 4 then storeWord
  else if width =? 2 then storeHalfWord
  else if width =? 1 then storeByte
  else storeDoubleWord.

(** A divide or modulo instruction whose divisor operand is zero. *)
Definition zero_divisor (s : State) (instr : Instruction) : Prop :=
  ((Opcode instr = ALU64_DIV_IMM \/ Opcode instr = ALU64_MOD_IMM)
   /\ Imm instr = 0)
  \/ ((Opcode instr = ALU64_DIV_REG \/ Opcode instr = ALU64_MOD_REG)
      /\ get_reg s (Src instr) = Ok 0).

(** The registers of a state, everything else as in [zero_State]. *)
Definition with_regs (regs : list Z) : State :=
  {| Memory := []; Regs := regs; PC := 0 |}.

(** Sign extension of an unsigned [bits]-bit value: values with the
    top bit set stand for the negative numbers. *)
Definition sign_extend (bits u : Z) : Z :=
  if u <? 2 ^ (bits - 1) then u else u - 2 ^ bits.

(** What a load leaves in the 64-bit register for the unsigned
    little-endian value [u] it read: half-words and bytes are
    sign-extended, words are zero-extended (kept as they are), and a
    double word fills the register. *)
Definition extension (op : byte) (u : Z) : Z :=
  match op with
  | MEM_LDXH => sign_extend 16 u
  | MEM_LDXB => sign_extend 8 u
  | MEM_LDXW => u
  | _ => sign_extend 64 u
  end.

(** The unsigned value of a byte sequence read little-endian. *)
Definition le_value (bs : list byte) : Z :=
  foldr (fun b acc => byte_val b + 256 * acc) 0 bs.

(** The instruction record that the encoding layout assigns to the
    eight bytes of a slot: byte 0 is the opcode; the low nibble of byte
    1 is dst, its high nibble src; bytes 2-3 are the offset and bytes
    4-7 the immediate, both signed and little-endian. *)
Definition slot_record (b0 b1 b2 b3 b4 b5 b6 b7 : byte) : Instruction :=
  {| Opcode := b0;
     Dst := (Byte.to_N b1 mod 16)%N;
     Src := (Byte.to_N b1 / 16)%N;
     Offset := sign_extend 16 (le_value [b2; b3]);
     Imm := sign_extend 32 (le_value [b4; b5; b6; b7]) |}.

Definition finished (o : outcome) : Prop :=
  match o with
  | OutOfFuel _ => False
  | _ => True
  end.

(** What the types of the fields of an instruction guarantee. *)
Definition wf_Instruction (instr : Instruction) : Prop :=
  (Dst instr < 256)%N /\ (Src instr < 256)%N
  /\ - 2 ^ 15 <= Offset instr < 2 ^ 15
  /\ in_int32 (Imm instr).

(** The opcodes whose case indexes the register array with
    [instr.Dst]. *)
Definition uses_dst (op : byte) : bool :=
  match op with
  | ALU64_ADD_IMM | ALU64_ADD_REG | ALU64_SUB_IMM | ALU64_SUB_REG
  | ALU64_MUL_IMM | ALU64_DIV_IMM | ALU64_DIV_REG
  | ALU64_OR_IMM | ALU64_OR_REG | ALU64_AND_IMM | ALU64_AND_REG
  | ALU64_LSH_IMM | ALU64_LSH_REG | ALU64_RSH_IMM | ALU64_RSH_REG
  | ALU64_NEG | ALU64_MOD_IMM | ALU64_MOD_REG
  | ALU64_XOR_IMM | ALU64_XOR_REG | ALU64_MOV_IMM | ALU64_MOV_REG
  | ALU64_ARSH_IMM | ALU64_ARSH_REG
  | MEM_LDDW | MEM_LDXW | MEM_LDXH | MEM_LDXB | MEM_LDXDW
  | MEM_STW | MEM_STH | MEM_STB | MEM_STDW
  | MEM_STXW | MEM_STXH | MEM_STXB | MEM_STXDW
  | BRANCH_JEQ_IMM | BRANCH_JEQ_REG | BRANCH_JGT_IMM | BRANCH_JGT_REG
  | BRANCH_JGE_IMM | BRANCH_JGE_REG | BRANCH_JLT_IMM | BRANCH_JLT_REG
  | BRANCH_JLE_IMM | BRANCH_JLE_REG | BRANCH_JSET_IMM | BRANCH_JSET_REG
  | BRANCH_JNE_IMM | BRANCH_JNE_REG | BRANCH_JSGT_IMM | BRANCH_JSGT_REG
  | BRANCH_JSGE_IMM | BRANCH_JSGE_REG | BRANCH_JSLT_IMM | BRANCH_JSLT_REG
  | BRANCH_JSLE_IMM | BRANCH_JSLE_REG => true
  | _ => false
  end.

(** The opcodes whose case indexes the register array with
    [instr.Src]. *)
Definition uses_src (op : byte) : bool :=
  match op with
  | ALU64_ADD_REG | ALU64_SUB_REG | ALU64_DIV_REG
  | ALU64_OR_REG | ALU64_AND_REG | ALU64_LSH_REG | ALU64_RSH_REG
  | ALU64_MOD_REG | ALU64_XOR_REG | ALU64_MOV_REG | ALU64_ARSH_REG
  | MEM_LDXW | MEM_LDXH | MEM_LDXB | MEM_LDXDW
  | MEM_STXW | MEM_STXH | MEM_STXB | MEM_STXDW
  | BRANCH_JEQ_REG | BRANCH_JGT_REG | BRANCH_JGE_REG | BRANCH_JLT_REG
  | BRANCH_JLE_REG | BRANCH_JSET_REG | BRANCH_JNE_REG | BRANCH_JSGT_REG
  | BRANCH_JSGE_REG | BRANCH_JSLT_REG | BRANCH_JSLE_REG => true
  | _ => false
  end.

(** A memory access whose address plus width is past the largest
    [int64]. *)
Definition address_overflow (s : State) (instr : Instruction) : Prop :=
  exists k w a,
    mem_access (Opcode instr) = Some (k, w)
    /\ effective_address s instr = Ok a
    /\ max_int64 < a + w.

(** ** Vocabulary of the further properties *)

(* Opcodes that are declared but have no case in [Execute] *)
Abbreviation BYTESWAP_LE16 := xd4.
Abbreviation BYTESWAP_LE32 := xd4.
Abbreviation BYTESWAP_LE64 := xd4.
Abbreviation BYTESWAP_BE16 := xdc.
Abbreviation BYTESWAP_BE32 := xdc.
Abbreviation BYTESWAP_BE64 := xdc.
Abbreviation MEM_LDABSW := x20.
Abbreviation MEM_LDABSH := x28.
Abbreviation MEM_LDABSB := x30.
Abbreviation MEM_LDABSDW := x38.
Abbreviation MEM_LDINDW := x40.
Abbreviation MEM_LDINDH := x48.
Abbreviation MEM_LDINDB := x50.
Abbreviation MEM_LDINDDW := x58.

Definition declared_without_case : list byte :=
  [ BYTESWAP_LE16; BYTESWAP_LE32; BYTESWAP_LE64;
    BYTESWAP_BE16; BYTESWAP_BE32; BYTESWAP_BE64;
    MEM_LDABSW; MEM_LDABSH; MEM_LDABSB; MEM_LDABSDW;
    MEM_LDINDW; MEM_LDINDH; MEM_LDINDB; MEM_LDINDDW ].

(** The opcodes that have a case in the switch of [Execute]. *)
Definition dispatched (op : byte) : bool :=
  match op with
  | ALU64_ADD_IMM | ALU64_ADD_REG | ALU64_SUB_IMM | ALU64_SUB_REG
  | ALU64_MUL_IMM | ALU64_MUL_REG | ALU64_DIV_IMM | ALU64_DIV_REG
  | ALU64_OR_IMM | ALU64_OR_REG | ALU64_AND_IMM | ALU64_AND_REG
  | ALU64_LSH_IMM | ALU64_LSH_REG | ALU64_RSH_IMM | ALU64_RSH_REG
  | ALU64_NEG | ALU64_MOD_IMM | ALU64_MOD_REG
  | ALU64_XOR_IMM | ALU64_XOR_REG | ALU64_MOV_IMM | ALU64_MOV_REG
  | ALU64_ARSH_IMM | ALU64_ARSH_REG
  | MEM_LDDW | MEM_LDXW | MEM_LDXH | MEM_LDXB | MEM_LDXDW
  | MEM_STW | MEM_STH | MEM_STB | MEM_STDW
  | MEM_STXW | MEM_STXH | MEM_STXB | MEM_STXDW
  | BRANCH_JA
  | BRANCH_JEQ_IMM | BRANCH_JEQ_REG | BRANCH_JGT_IMM | BRANCH_JGT_REG
  | BRANCH_JGE_IMM | BRANCH_JGE_REG | BRANCH_JLT_IMM | BRANCH_JLT_REG
  | BRANCH_JLE_IMM | BRANCH_JLE_REG | BRANCH_JSET_IMM | BRANCH_JSET_REG
  | BRANCH_JNE_IMM | BRANCH_JNE_REG | BRANCH_JSGT_IMM | BRANCH_JSGT_REG
  | BRANCH_JSGE_IMM | BRANCH_JSGE_REG | BRANCH_JSLT_IMM | BRANCH_JSLT_REG
  | BRANCH_JSLE_IMM | BRANCH_JSLE_REG
  | BRANCH_CALL | BRANCH_EXIT => true
  | _ => false
  end.

(** The opcodes whose case assigns to [s.PC]: the jumps and the call. *)
Definition is_jump (op : byte) : bool :=
  match op with
  | BRANCH_JA
  | BRANCH_JEQ_IMM | BRANCH_JEQ_REG | BRANCH_JGT_IMM | BRANCH_JGT_REG
  | BRANCH_JGE_IMM | BRANCH_JGE_REG | BRANCH_JLT_IMM | BRANCH_JLT_REG
  | BRANCH_JLE_IMM | BRANCH_JLE_REG | BRANCH_JSET_IMM | BRANCH_JSET_REG
  | BRANCH_JNE_IMM | BRANCH_JNE_REG | BRANCH_JSGT_IMM | BRANCH_JSGT_REG
  | BRANCH_JSGE_IMM | BRANCH_JSGE_REG | BRANCH_JSLT_IMM | BRANCH_JSLT_REG
  | BRANCH_JSLE_IMM | BRANCH_JSLE_REG
  | BRANCH_CALL => true
  | _ => false
  end.

(** The opcodes whose case assigns to [s.Regs[instr.Dst]]: the
    arithmetic cases that have a statement, and the loads. *)
Definition writes_dst (op : byte) : bool :=
  match op with
  | ALU64_ADD_IMM | ALU64_ADD_REG | ALU64_SUB_IMM | ALU64_SUB_REG
  | ALU64_MUL_IMM | ALU64_DIV_IMM | ALU64_DIV_REG
  | ALU64_OR_IMM | ALU64_OR_REG | ALU64_AND_IMM | ALU64_AND_REG
  | ALU64_LSH_IMM | ALU64_LSH_REG | ALU64_RSH_IMM | ALU64_RSH_REG
  | ALU64_NEG | ALU64_MOD_IMM | ALU64_MOD_REG
  | ALU64_XOR_IMM | ALU64_XOR_REG | ALU64_MOV_IMM | ALU64_MOV_REG
  | ALU64_ARSH_IMM | ALU64_ARSH_REG
  | MEM_LDDW | MEM_LDXW | MEM_LDXH | MEM_LDXB | MEM_LDXDW => true
  | _ => false
  end.



(** A store of [w] bytes at [a] that took [s] to [s']: the registers,
    the program counter, the size of the memory and every byte outside
    the accessed range are as they were. *)
Definition store_frame (s s' : State) (a w : Z) : Prop :=
  Regs s' = Regs s /\ PC s' = PC s
  /\ length (Memory s') = length (Memory s)
  /\ forall i : nat, Z.of_nat i < a \/ a + w <= Z.of_nat i ->
                     Memory s' !! i = Memory s !! i.

(** What one successful call of [Execute] can have done to the state:
    nothing; an assignment to the destination register; a jump; the
    linkage and jump of a call; or a store, which leaves the registers,
    the program counter, the size of the memory and every byte outside
    the accessed range as they were. *)
Inductive effect (s : State) (instr : Instruction) : State -> Prop :=
| eff_none : effect s instr s
| eff_reg (v : Z) :
    writes_dst (Opcode instr) = true ->
    effect s instr (set_Regs s (<[N.to_nat (Dst instr) := v]> (Regs s)))
| eff_jump :
    is_jump (Opcode instr) = true ->
    effect s instr (set_PC s (int64 (PC s + int64 (Offset instr))))
| eff_call :
    Opcode instr = BRANCH_CALL ->
    effect s instr
      (set_PC (set_Regs s (<[8%nat := int64 (int64 (PC s + 1))]> (Regs s)))
              (int64 (PC s + int64 (Offset instr))))
| eff_store (w a : Z) (s' : State) :
    mem_access (Opcode instr) = Some (Store, w) ->
    effective_address s instr = Ok a ->
    store_frame s s' a w ->
    effect s instr s'.

(** The load helper for a given width. *)
Definition load_helper (width : Z) : State -> Z -> Res Z :=
  if width =? 4 then loadWord
  else if width =? 2 then loadHalfWord
  else if width =? 1 then loadByte
  else loadDoubleWord.

(** What a load of [width] bytes returns for the bytes of [v] written
    by the store of the same width: the low 32 bits as an unsigned
    number for a word, the low bits as a signed number otherwise. *)
Definition reread (width v : Z) : Z :=
  if width =? 4 then uint32 v else signed (8 * width) v.

(** The part of a value that a store of [width] bytes writes. *)
Definition stored_part (width v : Z) : Z := v mod 2 ^ (8 * width).

(** * Properties *)

(** ** Fixed-width conversions *)

Lemma signed_small (bits z : Z) :
  0 < bits -> - 2 ^ (bits - 1) <= z < 2 ^ (bits - 1) -> signed bits z = z.
Proof.
  intros Hb Hz. unfold signed.
  assert (H2 : 2 ^ bits = 2 * 2 ^ (bits - 1)).
  { rewrite <- Z.pow_succ_r by lia. f_equal. lia. }
  rewrite Z.mod_small; lia.
Qed.

Lemma signed_range (bits z : Z) :
  0 < bits -> - 2 ^ (bits - 1) <= signed bits z < 2 ^ (bits - 1).
Proof.
  intros Hb. unfold signed.
  assert (H2 : 2 ^ bits = 2 * 2 ^ (bits - 1)).
  { rewrite <- Z.pow_succ_r by lia. f_equal. lia. }
  assert (0 < 2 ^ (bits - 1)) by (apply Z.pow_pos_nonneg; lia).
  pose proof (Z.mod_pos_bound (z + 2 ^ (bits - 1)) (2 ^ bits)). lia.
Qed.

Lemma int64_small (z : Z) : in_int64 z -> int64 z = z.
Proof. unfold in_int64, min_int64, max_int64. intros H. apply signed_small; lia. Qed.

Lemma int64_range (z : Z) : in_int64 (int64 z).
Proof.
  pose proof (signed_range 64 z eq_refl) as H.
  unfold in_int64, min_int64, max_int64, int64. simpl in *. lia.
Qed.

(** ** Bytes *)

Lemma byte_val_range (b : byte) : 0 <= byte_val b < 256.
Proof. unfold byte_val. pose proof (Byte.to_N_bounded b). lia. Qed.

Lemma byte_val_of (v : Z) : byte_val (byte_of v) = v mod 256.
Proof.
  unfold byte_of, byte_val, uint8, unsigned. change (2 ^ 8) with 256.
  pose proof (Z.mod_pos_bound v 256 eq_refl) as Hv.
  destruct (Byte.of_N (Z.to_N (v mod 256))) as [b|] eqn:E; simpl.
  - apply Byte.to_of_N in E. rewrite E. lia.
  - apply Byte.of_N_None_iff in E. lia.
Qed.

(** ** Little-endian reads and writes *)

Lemma put_le_length (n : nat) :
  forall mem a v, length (put_le n mem a v) = length mem.
Proof.
  induction n as [|n IH]; intros mem a v; simpl; [reflexivity|].
  rewrite IH. apply length_insert.
Qed.

(** Writing from [a] on leaves the bytes below [a] alone. *)
Lemma put_le_lookup_below (n : nat) :
  forall mem a v i, (i < a)%nat -> put_le n mem a v !! i = mem !! i.
Proof.
  induction n as [|n IH]; intros mem a v i Hi; simpl; [reflexivity|].
  rewrite IH by lia. apply list_lookup_insert_ne. lia.
Qed.

Lemma get_le_range (n : nat) :
  forall mem a, 0 <= get_le n mem a < 2 ^ (8 * Z.of_nat n).
Proof.
  induction n as [|n IH]; intros mem a; simpl get_le.
  - simpl. lia.
  - specialize (IH mem (S a)).
    pose proof (byte_val_range (default x00 (mem !! a))).
    replace (8 * Z.of_nat (S n)) with (8 + 8 * Z.of_nat n) by lia.
    rewrite Z.pow_add_r by lia. change (2 ^ 8) with 256. lia.
Qed.

(** What was written is read back, reduced to the width written. *)
Lemma get_put_le (n : nat) :
  forall mem a v, (a + n <= length mem)%nat ->
    get_le n (put_le n mem a v) a = v mod 2 ^ (8 * Z.of_nat n).
Proof.
  induction n as [|n IH]; intros mem a v Hlen.
  - simpl. now rewrite Z.mod_1_r.
  - simpl get_le. simpl put_le.
    rewrite put_le_lookup_below by lia.
    rewrite list_lookup_insert_eq by lia. simpl.
    rewrite byte_val_of.
    rewrite IH by (rewrite length_insert; lia).
    rewrite Z.shiftr_div_pow2 by lia. change (2 ^ 8) with 256.
    replace (8 * Z.of_nat (S n)) with (8 + 8 * Z.of_nat n) by lia.
    rewrite Z.pow_add_r by lia. change (2 ^ 8) with 256.
    rewrite Z.rem_mul_r; [reflexivity | lia |].
    apply Z.pow_pos_nonneg; lia.
Qed.

(** ** Registers *)

Lemma get_reg_in_range (s : State) (i : N) :
  wf_State s -> (i <= 10)%N -> exists v, get_reg s i = Ok v.
Proof.
  intros [Hlen _] Hi. unfold get_reg.
  destruct (Regs s !! N.to_nat i) as [v|] eqn:E; [eauto|].
  apply lookup_ge_None in E. unfold NumRegs in Hlen. lia.
Qed.

Lemma get_reg_out_of_range (s : State) (i : N) :
  wf_State s -> (10 < i)%N -> get_reg s i = Panic IndexOutOfRange.
Proof.
  intros [Hlen _] Hi. unfold get_reg.
  rewrite (proj2 (lookup_ge_None _ _)); [reflexivity|].
  unfold NumRegs in Hlen. lia.
Qed.

Lemma put_reg_in_range (s : State) (i : N) (v : Z) :
  wf_State s -> (i <= 10)%N ->
  put_reg s i v = Ok (set_Regs s (<[N.to_nat i := v]> (Regs s))).
Proof.
  intros [Hlen _] Hi. unfold put_reg.
  destruct (decide _) as [|Hn]; [reflexivity|].
  unfold NumRegs in Hlen. lia.
Qed.

Lemma put_reg_out_of_range (s : State) (i : N) (v : Z) :
  wf_State s -> (10 < i)%N -> put_reg s i v = Panic IndexOutOfRange.
Proof.
  intros [Hlen _] Hi. unfold put_reg.
  destruct (decide _) as [Hl|]; [|reflexivity].
  unfold NumRegs in Hlen. lia.
Qed.

Lemma wf_set_Regs (s : State) (i : nat) (v : Z) :
  wf_State s -> wf_State (set_Regs s (<[i := v]> (Regs s))).
Proof. intros [Hlen Hmem]. split; simpl; [now rewrite length_insert | exact Hmem]. Qed.

Lemma get_put_reg_eq (s : State) (i : N) (v : Z) :
  wf_State s -> (i <= 10)%N ->
  get_reg (set_Regs s (<[N.to_nat i := v]> (Regs s))) i = Ok v.
Proof.
  intros [Hlen _] Hi. unfold get_reg. simpl.
  rewrite list_lookup_insert_eq; [reflexivity|]. unfold NumRegs in Hlen. lia.
Qed.

Lemma get_put_reg_ne (s : State) (i j : N) (v : Z) :
  i <> j ->
  get_reg (set_Regs s (<[N.to_nat i := v]> (Regs s))) j = get_reg s j.
Proof.
  intros Hij. unfold get_reg. simpl.
  rewrite list_lookup_insert_ne; [reflexivity|]. lia.
Qed.


(** ** The fetch-execute loop and its step budget *)

(** A run that ends within its budget ends the same way with a larger
    one. *)
Lemma run_more_fuel (fuel extra : nat) (program : list Instruction) :
  forall s, finished (run fuel program s) ->
            run (fuel + extra) program s = run fuel program s.
Proof.
  induction fuel as [|fuel IH]; intros s Hfin.
  - simpl in *. destruct (PC s <? _) eqn:E; [contradiction|].
    destruct extra; simpl; rewrite E; reflexivity.
  - simpl in *. destruct (PC s <? _); [|reflexivity].
    destruct (fetch program (PC s)) as [instr|]; [|reflexivity].
    destruct (Execute s instr) as [[s' [e|]]|]; try reflexivity.
    now apply IH.
Qed.

Lemma Interpret_more_fuel (fuel extra : nat) (bytecode : list byte) :
  finished (Interpret fuel bytecode) ->
  Interpret (fuel + extra) bytecode = Interpret fuel bytecode.
Proof.
  unfold Interpret. destruct (decode bytecode); [|reflexivity].
  apply run_more_fuel.
Qed.

(** C1. The six-instruction program of [main] leaves the loop through
    the exit instruction, for every step budget of six or more, with
    r0 = 11, r1 = 14, r2 = 9 and all other registers 0. *)
Theorem main_program_result (extra : nat) :
  Interpret (6 + extra) main_bytecode =
  Stopped err_exit
    {| Memory := []; Regs := [11; 14; 9; 0; 0; 0; 0; 0; 0; 0; 0]; PC := 5 |}.
Proof.
  rewrite Interpret_more_fuel; [vm_compute; reflexivity|].
  vm_compute. exact I.
Qed.

(** ** Arithmetic instructions *)

(** The case of the multiply-by-register opcode has no statement. *)
Lemma Execute_MUL_REG (s : State) (instr : Instruction) :
  Opcode instr = ALU64_MUL_REG -> Execute s instr = Ok (s, None).
Proof. intros Hop. unfold Execute. rewrite Hop. reflexivity. Qed.

(** C5. Multiply-by-register on r1 = 5 and r2 = 9: the destination
    register still holds 5 afterwards, where the product of the held
    values is 45. *)
Theorem mul_reg_keeps_dst :
  let s := with_regs [0; 5; 9; 0; 0; 0; 0; 0; 0; 0; 0] in
  let instr := {| Opcode := ALU64_MUL_REG; Dst := 1; Src := 2;
                  Offset := 0; Imm := 0 |} in
  exists s', Execute s instr = Ok (s', None)
             /\ get_reg s' 1 = Ok 5
             /\ int64 (5 * 9) = 45.
Proof. eexists. repeat split; vm_compute; reflexivity. Qed.

(** The shift behind the arithmetic-right-shift opcodes clears the
    sign of a negative operand for every count from 1 to 63. *)
Lemma shr64_via_uint64_nonneg (x c : Z) :
  in_int64 x -> x < 0 -> 0 < c < 64 -> 0 <= shr64_via_uint64 x c.
Proof.
  unfold in_int64, min_int64, max_int64. intros Hx Hneg Hc.
  unfold shr64_via_uint64.
  destruct (64 <=? c) eqn:E; [lia|].
  assert (Hu : uint64 x = x + 2 ^ 64).
  { unfold uint64, unsigned.
    rewrite <- (Z.mod_add x 1 (2 ^ 64)) by lia.
    rewrite Z.mod_small; lia. }
  rewrite Hu, Z.shiftr_div_pow2 by lia.
  assert (Hp : 2 <= 2 ^ c).
  { change 2 with (2 ^ 1) at 1. apply Z.pow_le_mono_r; lia. }
  assert (0 <= (x + 2 ^ 64) / 2 ^ c) by (apply Z.div_pos; lia).
  assert ((x + 2 ^ 64) / 2 ^ c < 2 ^ 63).
  { apply Z.div_lt_upper_bound; nia. }
  rewrite int64_small; [lia|].
  unfold in_int64, min_int64, max_int64. lia.
Qed.

(** C6. Arithmetic-right-shift by immediate 1 on a register holding -8
    yields 9223372036854775804 (the logical shift of the 64-bit
    pattern), where the sign-preserving result is -4. *)
Theorem arsh_imm_minus_8 :
  let s := with_regs [0; -8; 0; 0; 0; 0; 0; 0; 0; 0; 0] in
  let instr := {| Opcode := ALU64_ARSH_IMM; Dst := 1; Src := 0;
                  Offset := 0; Imm := 1 |} in
  exists s', Execute s instr = Ok (s', None)
             /\ get_reg s' 1 = Ok 9223372036854775804
             /\ sar64 (-8) 1 = -4.
Proof. eexists. repeat split; vm_compute; reflexivity. Qed.




(** ** Memory instructions *)

Section Guard.
Variable s : State.
Variables a w : Z.
Hypothesis Ha : in_int64 a.
Hypothesis Hw : 0 < w.

(** Where the sum does not overflow, the guard of the helpers is the
    mathematical bounds test. *)
Lemma guard_fires :
  a + w <= max_int64 -> a < 0 \/ mem_len s < a + w ->
  (a <? 0) || (mem_len s <? int64 (a + w)) = true.
Proof using Ha Hw.
  intros Hov Hout. unfold in_int64, min_int64, max_int64 in *.
  rewrite int64_small by (unfold in_int64, min_int64, max_int64; lia).
  apply orb_true_iff. destruct Hout; [left | right]; lia.
Qed.

Lemma guard_passes :
  wf_State s -> 0 <= a -> a + w <= mem_len s ->
  (a <? 0) || (mem_len s <? int64 (a + w)) = false.
Proof using Ha Hw.
  intros [_ Hmem] H0 Hin. unfold in_int64, min_int64, max_int64 in *.
  rewrite int64_small by (unfold in_int64, min_int64, max_int64; lia).
  apply orb_false_iff. split; lia.
Qed.

Lemma slice_ok_in_bounds :
  wf_State s -> 0 <= a -> a + w <= mem_len s ->
  slice_ok s a (int64 (a + w)) = Ok tt.
Proof using Ha Hw.
  intros [_ Hmem] H0 Hin. unfold in_int64, min_int64, max_int64 in *.
  rewrite int64_small by (unfold in_int64, min_int64, max_int64; lia).
  unfold slice_ok.
  replace (0 <=? a) with true by lia.
  replace (a <=? a + w) with true by lia.
  replace (a + w <=? mem_len s) with true by lia.
  reflexivity.
Qed.

(** Where the sum overflows, the guard does not fire: the wrapped
    sum is negative. *)
Lemma guard_bypassed :
  wf_State s -> w <= 8 -> max_int64 < a + w ->
  (a <? 0) || (mem_len s <? int64 (a + w)) = false
  /\ int64 (a + w) < 0.
Proof using Ha Hw.
  intros [_ Hmem] Hw8 Hov. unfold in_int64, min_int64, max_int64 in *.
  assert (Hwrap : int64 (a + w) = a + w - 2 ^ 64).
  { unfold int64, signed.
    rewrite <- (Z.mod_add _ (-1) (2 ^ 64)) by lia.
    rewrite Z.mod_small; lia. }
  assert (0 <= mem_len s) by (unfold mem_len; lia).
  rewrite Hwrap. split; [|lia].
  apply orb_false_iff. split; lia.
Qed.
End Guard.

Lemma effective_address_in_int64 (s : State) (instr : Instruction) (a : Z) :
  effective_address s instr = Ok a -> in_int64 a.
Proof.
  unfold effective_address. destruct (get_reg s (base_reg instr)); simpl; [|discriminate].
  intros [= <-]. apply int64_range.
Qed.

(** The helpers on an address outside the buffer. *)
Section OutOfBounds.
Variable s : State.
Variable a : Z.
Hypothesis Ha : in_int64 a.

Ltac fire w :=
  intros Hov Hout;
  rewrite (guard_fires s a w Ha) by (assumption || lia);
  reflexivity.

Lemma loadWord_out_of_bounds :
  a + 4 <= max_int64 -> a < 0 \/ mem_len s < a + 4 -> loadWord s a = Ok 0.
Proof using Ha. unfold loadWord. fire 4. Qed.

Lemma loadHalfWord_out_of_bounds :
  a + 2 <= max_int64 -> a < 0 \/ mem_len s < a + 2 -> loadHalfWord s a = Ok 0.
Proof using Ha. unfold loadHalfWord. fire 2. Qed.

Lemma loadByte_out_of_bounds :
  a + 1 <= max_int64 -> a < 0 \/ mem_len s < a + 1 -> loadByte s a = Ok 0.
Proof using Ha. unfold loadByte. fire 1. Qed.

Lemma loadDoubleWord_out_of_bounds :
  a + 8 <= max_int64 -> a < 0 \/ mem_len s < a + 8 -> loadDoubleWord s a = Ok 0.
Proof using Ha. unfold loadDoubleWord. fire 8. Qed.

Lemma storeWord_out_of_bounds (v : Z) :
  a + 4 <= max_int64 -> a < 0 \/ mem_len s < a + 4 ->
  storeWord s a v = Ok (s, Some err_out_of_bounds).
Proof using Ha. unfold storeWord. fire 4. Qed.

Lemma storeHalfWord_out_of_bounds (v : Z) :
  a + 2 <= max_int64 -> a < 0 \/ mem_len s < a + 2 ->
  storeHalfWord s a v = Ok (s, Some err_out_of_bounds).
Proof using Ha. unfold storeHalfWord. fire 2. Qed.

Lemma storeByte_out_of_bounds (v : Z) :
  a + 1 <= max_int64 -> a < 0 \/ mem_len s < a + 1 ->
  storeByte s a v = Ok (s, Some err_out_of_bounds).
Proof using Ha. unfold storeByte. fire 1. Qed.

Lemma storeDoubleWord_out_of_bounds (v : Z) :
  a + 8 <= max_int64 -> a < 0 \/ mem_len s < a + 8 ->
  storeDoubleWord s a v = Ok (s, Some err_out_of_bounds).
Proof using Ha. unfold storeDoubleWord. fire 8. Qed.

(** Past the largest [int64] the guard is bypassed and the slice or
    index expression panics. *)
Hypothesis Hwf : wf_State s.

Ltac bypass w :=
  intros Hov;
  destruct (guard_bypassed s a w Ha ltac:(lia) Hwf ltac:(lia) Hov) as [Hg Hneg];
  rewrite Hg; unfold Uint, PutUint, slice_ok, index_ok;
  destruct Hwf as [_ Hmem];
  unfold in_int64, min_int64, max_int64 in *;
  match goal with
  | |- context [_ <=? int64 ?x] =>
      replace (a <=? int64 x) with false by lia;
      rewrite andb_false_r
  | |- context [a <? mem_len s] =>
      replace (a <? mem_len s) with false by lia;
      rewrite andb_false_r
  end;
  eexists; reflexivity.

Lemma loadWord_overflow :
  max_int64 < a + 4 -> exists p, loadWord s a = Panic p.
Proof using Ha Hwf. unfold loadWord. bypass 4. Qed.

Lemma loadHalfWord_overflow :
  max_int64 < a + 2 -> exists p, loadHalfWord s a = Panic p.
Proof using Ha Hwf. unfold loadHalfWord. bypass 2. Qed.

Lemma loadByte_overflow :
  max_int64 < a + 1 -> exists p, loadByte s a = Panic p.
Proof using Ha Hwf. unfold loadByte. bypass 1. Qed.

Lemma loadDoubleWord_overflow :
  max_int64 < a + 8 -> exists p, loadDoubleWord s a = Panic p.
Proof using Ha Hwf. unfold loadDoubleWord. bypass 8. Qed.

Lemma storeWord_overflow (v : Z) :
  max_int64 < a + 4 -> exists p, storeWord s a v = Panic p.
Proof using Ha Hwf. unfold storeWord. bypass 4. Qed.

Lemma storeHalfWord_overflow (v : Z) :
  max_int64 < a + 2 -> exists p, storeHalfWord s a v = Panic p.
Proof using Ha Hwf. unfold storeHalfWord. bypass 2. Qed.

Lemma storeByte_overflow (v : Z) :
  max_int64 < a + 1 -> exists p, storeByte s a v = Panic p.
Proof using Ha Hwf. unfold storeByte. bypass 1. Qed.

Lemma storeDoubleWord_overflow (v : Z) :
  max_int64 < a + 8 -> exists p, storeDoubleWord s a v = Panic p.
Proof using Ha Hwf. unfold storeDoubleWord. bypass 8. Qed.
End OutOfBounds.

(** An effective address is the wrapped sum of an in-range base
    register and the offset. *)
Lemma effective_address_inv (s : State) (instr : Instruction) (a : Z) :
  effective_address s instr = Ok a ->
  exists base, get_reg s (base_reg instr) = Ok base
               /\ a = int64 (base + int64 (Offset instr)).
Proof.
  unfold effective_address.
  destruct (get_reg s (base_reg instr)) as [base|]; simpl; [|discriminate].
  intros [= <-]. eauto.
Qed.

Ltac memory_cases Hop Hacc :=
  match type of Hacc with
  | mem_access (Opcode ?instr) = _ =>
      destruct (Opcode instr) eqn:Hop; simpl in Hacc; try discriminate Hacc;
      injection Hacc as <- <-
  end.

(** C2, as the claim states it, fails: a load-word from the negative
    address -1 makes [Execute] return without an error, the destination
    register overwritten with 0. *)
Lemma out_of_bounds_load_returns_no_fault :
  let s := with_regs [0; 7; -1; 0; 0; 0; 0; 0; 0; 0; 0] in
  let instr := {| Opcode := MEM_LDXW; Dst := 1; Src := 2;
                  Offset := 0; Imm := 0 |} in
  effective_address s instr = Ok (-1)
  /\ Execute s instr = Ok (with_regs [0; 0; -1; 0; 0; 0; 0; 0; 0; 0; 0], None).
Proof. split; vm_compute; reflexivity. Qed.

Lemma overflowing_access_panics (s : State) (instr : Instruction)
  (k : access) (w a : Z) :
  wf_State s -> (Dst instr <= 10)%N -> (Src instr <= 10)%N ->
  mem_access (Opcode instr) = Some (k, w) ->
  effective_address s instr = Ok a ->
  max_int64 < a + w ->
  exists p, Execute s instr = Panic p.
Proof.
  intros Hwf Hd Hs Hacc Hea Hov.
  pose proof (effective_address_in_int64 _ _ _ Hea) as Hin.
  apply effective_address_inv in Hea as (base & Hbase & ->).
  destruct (get_reg_in_range s (Src instr) Hwf Hs) as [vs Hvs].
  unfold base_reg in Hbase.
  memory_cases Hop Hacc; simpl in Hbase;
    unfold Execute, assign, discard_error; rewrite Hop;
    rewrite ?Hbase, ?Hvs; simpl;
    match goal with
    | |- context [loadWord s ?a] =>
        destruct (loadWord_overflow s a Hin Hwf Hov) as [p ->]
    | |- context [loadHalfWord s ?a] =>
        destruct (loadHalfWord_overflow s a Hin Hwf Hov) as [p ->]
    | |- context [loadByte s ?a] =>
        destruct (loadByte_overflow s a Hin Hwf Hov) as [p ->]
    | |- context [loadDoubleWord s ?a] =>
        destruct (loadDoubleWord_overflow s a Hin Hwf Hov) as [p ->]
    | |- context [storeWord s ?a ?v] =>
        destruct (storeWord_overflow s a Hin Hwf v Hov) as [p ->]
    | |- context [storeHalfWord s ?a ?v] =>
        destruct (storeHalfWord_overflow s a Hin Hwf v Hov) as [p ->]
    | |- context [storeByte s ?a ?v] =>
        destruct (storeByte_overflow s a Hin Hwf v Hov) as [p ->]
    | |- context [storeDoubleWord s ?a ?v] =>
        destruct (storeDoubleWord_overflow s a Hin Hwf v Hov) as [p ->]
    end; simpl; eauto.
Qed.

(** C2, amended. With both register selectors in range, a load or
    store whose effective address is negative, or whose address plus
    access width exceeds the memory capacity, never changes the memory
    buffer.  Where address plus width is still an [int64], a load
    writes 0 to the destination register and [Execute] returns without
    an error; for a store the helper reports "memory access out of
    bounds" and [Execute] returns with the state unchanged. *)
Theorem out_of_bounds_access (s : State) (instr : Instruction)
  (k : access) (w a : Z) :
  wf_State s -> (Dst instr <= 10)%N -> (Src instr <= 10)%N ->
  mem_access (Opcode instr) = Some (k, w) ->
  effective_address s instr = Ok a ->
  a < 0 \/ mem_len s < a + w ->
  (forall s' e, Execute s instr = Ok (s', e) -> Memory s' = Memory s)
  /\ (a + w <= max_int64 ->
      match k with
      | Load =>
          Execute s instr =
          Ok (set_Regs s (<[N.to_nat (Dst instr) := 0]> (Regs s)), None)
      | Store =>
          (forall v, store_helper w s a v = Ok (s, Some err_out_of_bounds))
          /\ exists e, Execute s instr = Ok (s, e)
      end).
Proof.
  intros Hwf Hd Hs Hacc Hea Hout.
  assert (Hfit : a + w <= max_int64 ->
      match k with
      | Load =>
          Execute s instr =
          Ok (set_Regs s (<[N.to_nat (Dst instr) := 0]> (Regs s)), None)
      | Store =>
          (forall v, store_helper w s a v = Ok (s, Some err_out_of_bounds))
          /\ exists e, Execute s instr = Ok (s, e)
      end).
  { intros Hov.
    pose proof (effective_address_in_int64 _ _ _ Hea) as Hin.
    apply effective_address_inv in Hea as (base & Hbase & ->).
    destruct (get_reg_in_range s (Src instr) Hwf Hs) as [vs Hvs].
    unfold base_reg in Hbase.
    memory_cases Hop Hacc; simpl in Hbase;
      try (split; [intros v; unfold store_helper; simpl|]);
      unfold Execute, assign, discard_error; try rewrite Hop;
      rewrite ?Hbase, ?Hvs; simpl;
      rewrite ?loadWord_out_of_bounds, ?loadHalfWord_out_of_bounds,
        ?loadByte_out_of_bounds, ?loadDoubleWord_out_of_bounds,
        ?storeWord_out_of_bounds, ?storeHalfWord_out_of_bounds,
        ?storeByte_out_of_bounds, ?storeDoubleWord_out_of_bounds
        by assumption;
      simpl; try rewrite (put_reg_in_range s (Dst instr) 0 Hwf Hd);
      eauto. }
  split; [|exact Hfit].
  intros s' e Hex.
  destruct (Z_le_gt_dec (a + w) max_int64) as [Hov|Hov].
  - specialize (Hfit Hov). destruct k.
    + rewrite Hfit in Hex. injection Hex as <- <-. reflexivity.
    + destruct Hfit as [_ [e' He']]. rewrite He' in Hex.
      injection Hex as <- <-. reflexivity.
  - destruct (overflowing_access_panics s instr k w a) as [p Hp];
      try assumption; [lia|]. rewrite Hp in Hex. discriminate.
Qed.

Lemma out_of_bounds_access_witness :
  let s := with_regs [0; 7; 65536; 0; 0; 0; 0; 0; 0; 0; 0] in
  let instr := {| Opcode := MEM_STXH; Dst := 2; Src := 1;
                  Offset := -1; Imm := 0 |} in
  (forall s' e, Execute s instr = Ok (s', e) -> Memory s' = Memory s)
  /\ (65535 + 2 <= max_int64 ->
      (forall v, store_helper 2 s 65535 v = Ok (s, Some err_out_of_bounds))
      /\ exists e, Execute s instr = Ok (s, e)).
Proof.
  intros s instr.
  apply (out_of_bounds_access s instr Store 2 65535).
  - split; [reflexivity | vm_compute; discriminate].
  - vm_compute; discriminate.
  - vm_compute; discriminate.
  - reflexivity.
  - vm_compute; reflexivity.
  - right. vm_compute. reflexivity.
Defined.

Lemma signed_unsigned (bits u : Z) :
  0 < bits -> 0 <= u < 2 ^ bits -> signed bits u = sign_extend bits u.
Proof.
  intros Hb Hu. unfold signed, sign_extend.
  assert (H2 : 2 ^ bits = 2 * 2 ^ (bits - 1)).
  { rewrite <- Z.pow_succ_r by lia. f_equal. lia. }
  destruct (u <? 2 ^ (bits - 1)) eqn:E.
  - rewrite Z.mod_small; lia.
  - rewrite <- (Z.mod_add _ (-1) (2 ^ bits)) by lia.
    rewrite Z.mod_small; lia.
Qed.

Lemma sign_extend_range (bits u : Z) :
  0 < bits -> 0 <= u < 2 ^ bits ->
  - 2 ^ (bits - 1) <= sign_extend bits u < 2 ^ (bits - 1).
Proof.
  intros Hb Hu. rewrite <- signed_unsigned by assumption.
  now apply signed_range.
Qed.

(** C8. An in-bounds load reads the little-endian value [u] of the
    addressed bytes and leaves its extension in the destination
    register: the sign extension for half-words and bytes, the value
    itself, between 0 and 2^32, for words. *)
Theorem loads_extend (s : State) (instr : Instruction) (w a : Z) :
  wf_State s -> (Dst instr <= 10)%N -> (Src instr <= 10)%N ->
  mem_access (Opcode instr) = Some (Load, w) ->
  effective_address s instr = Ok a ->
  0 <= a -> a + w <= mem_len s ->
  let u := get_le (Z.to_nat w) (Memory s) (Z.to_nat a) in
  0 <= u < 2 ^ (8 * w)
  /\ Execute s instr =
     Ok (set_Regs s (<[N.to_nat (Dst instr) := extension (Opcode instr) u]>
                       (Regs s)), None).
Proof.
  intros Hwf Hd Hs Hacc Hea H0 Hin u.
  pose proof (effective_address_in_int64 _ _ _ Hea) as Hint.
  apply effective_address_inv in Hea as (base & Hbase & Ha).
  unfold base_reg in Hbase.
  destruct (Opcode instr) eqn:Hop; simpl in Hacc; try discriminate Hacc;
    injection Hacc as <-; simpl in Hbase;
    (split; [exact (get_le_range _ _ _)|]);
    unfold Execute, assign; rewrite Hop, Hbase; cbn [mbind Res_bind];
    rewrite <- Ha;
    unfold loadWord, loadHalfWord, loadByte, loadDoubleWord, Uint, extension;
    subst u.
  - (* word *)
    pose proof (get_le_range 4 (Memory s) (Z.to_nat a)) as Hu.
    change (2 ^ (8 * Z.of_nat 4)) with (2 ^ 32) in Hu.
    change (Z.to_nat 4) with 4%nat.
    rewrite (guard_passes s a 4), (slice_ok_in_bounds s a 4) by (assumption || lia).
    cbn [mbind Res_bind]. rewrite int64_small.
    + now rewrite (put_reg_in_range s (Dst instr) _ Hwf Hd).
    + unfold in_int64, min_int64, max_int64. lia.
  - (* half word *)
    pose proof (get_le_range 2 (Memory s) (Z.to_nat a)) as Hu.
    change (2 ^ (8 * Z.of_nat 2)) with (2 ^ 16) in Hu.
    change (Z.to_nat 2) with 2%nat.
    rewrite (guard_passes s a 2), (slice_ok_in_bounds s a 2) by (assumption || lia).
    cbn [mbind Res_bind].
    unfold int16. rewrite signed_unsigned by (exact Hu || lia).
    pose proof (sign_extend_range 16 _ eq_refl Hu) as Hr.
    change (2 ^ (16 - 1)) with 32768 in Hr.
    rewrite int64_small by (unfold in_int64, min_int64, max_int64; lia).
    now rewrite (put_reg_in_range s (Dst instr) _ Hwf Hd).
  - (* byte *)
    pose proof (get_le_range 1 (Memory s) (Z.to_nat a)) as Hu.
    change (2 ^ (8 * Z.of_nat 1)) with (2 ^ 8) in Hu.
    change (Z.to_nat 1) with 1%nat.
    rewrite (guard_passes s a 1) by (assumption || lia).
    unfold index_ok.
    replace ((0 <=? a) && (a <? mem_len s)) with true
      by (symmetry; apply andb_true_iff; split; lia).
    cbn [mbind Res_bind].
    assert (Hb : byte_val (default x00 (Memory s !! Z.to_nat a))
                 = get_le 1 (Memory s) (Z.to_nat a)) by (simpl; lia).
    rewrite Hb.
    unfold int8. rewrite signed_unsigned by (exact Hu || lia).
    pose proof (sign_extend_range 8 _ eq_refl Hu) as Hr.
    change (2 ^ (8 - 1)) with 128 in Hr.
    rewrite int64_small by (unfold in_int64, min_int64, max_int64; lia).
    now rewrite (put_reg_in_range s (Dst instr) _ Hwf Hd).
  - (* double word *)
    pose proof (get_le_range 8 (Memory s) (Z.to_nat a)) as Hu.
    change (2 ^ (8 * Z.of_nat 8)) with (2 ^ 64) in Hu.
    change (Z.to_nat 8) with 8%nat.
    rewrite (guard_passes s a 8), (slice_ok_in_bounds s a 8) by (assumption || lia).
    cbn [mbind Res_bind].
    unfold int64 at 1. rewrite signed_unsigned by (exact Hu || lia).
    now rewrite (put_reg_in_range s (Dst instr) _ Hwf Hd).
Qed.

Lemma loads_extend_witness :
  let s := {| Memory := [x00; xfe; xff; x00];
              Regs := [0; 0; 1; 0; 0; 0; 0; 0; 0; 0; 0]; PC := 0 |} in
  let instr := {| Opcode := MEM_LDXH; Dst := 1; Src := 2;
                  Offset := 0; Imm := 0 |} in
  let u := get_le (Z.to_nat 2) (Memory s) (Z.to_nat 1) in
  0 <= u < 2 ^ (8 * 2)
  /\ Execute s instr =
     Ok (set_Regs s (<[N.to_nat (Dst instr) := extension (Opcode instr) u]>
                       (Regs s)), None).
Proof.
  intros s instr.
  apply (loads_extend s instr 2 1).
  - split; [reflexivity | vm_compute; discriminate].
  - vm_compute; discriminate.
  - vm_compute; discriminate.
  - reflexivity.
  - vm_compute; reflexivity.
  - lia.
  - vm_compute; discriminate.
Defined.

(** ** Store-word, then load-word *)

Lemma uint32_int32 (v : Z) : uint32 (int32 v) = uint32 v.
Proof.
  unfold uint32, int32, unsigned, signed.
  rewrite Zminus_mod_idemp_l. f_equal. lia.
Qed.

Lemma int32_uint32 (v : Z) : int32 (uint32 v) = int32 v.
Proof.
  unfold uint32, int32, unsigned, signed.
  now rewrite Zplus_mod_idemp_l.
Qed.

Lemma uint32_range (v : Z) : 0 <= uint32 v < 2 ^ 32.
Proof. unfold uint32, unsigned. apply Z.mod_pos_bound. lia. Qed.

(** The helpers alone: a word stored in bounds is the word loaded. *)
Lemma loadWord_storeWord (s : State) (a v : Z) :
  wf_State s -> in_int64 a -> 0 <= a -> a + 4 <= mem_len s ->
  exists s1, storeWord s a v = Ok (s1, None)
             /\ Regs s1 = Regs s /\ PC s1 = PC s
             /\ mem_len s1 = mem_len s
             /\ loadWord s1 a = Ok (uint32 v).
Proof.
  intros Hwf Hint H0 Hin.
  unfold storeWord, PutUint.
  rewrite (guard_passes s a 4), (slice_ok_in_bounds s a 4) by (assumption || lia).
  cbn [mbind Res_bind]. eexists. split; [reflexivity|].
  set (s1 := set_Memory s _).
  assert (Hlen : mem_len s1 = mem_len s).
  { unfold mem_len, s1. cbn [Memory set_Memory]. now rewrite put_le_length. }
  assert (Hwf1 : wf_State s1).
  { destruct Hwf as [Hr Hm]. split; [exact Hr | now rewrite Hlen]. }
  repeat split; try assumption.
  unfold loadWord, Uint.
  rewrite (guard_passes s1 a 4), (slice_ok_in_bounds s1 a 4)
    by (assumption || lia).
  cbn [mbind Res_bind]. unfold s1 at 1. cbn [Memory set_Memory].
  rewrite get_put_le by (unfold mem_len in Hin; lia).
  change (2 ^ (8 * Z.of_nat 4)) with (2 ^ 32).
  pose proof (uint32_range v) as Hr.
  rewrite Z.mod_small by exact Hr.
  rewrite int64_small; [reflexivity|].
  unfold in_int64, min_int64, max_int64. lia.
Qed.

(** C9. A store-word (immediate or register form) to an in-bounds
    address, followed by a load-word from the same effective address,
    leaves in the destination register of the load the 32-bit value
    that was stored, zero-extended; the load changes nothing else. *)
Theorem store_load_word_round_trip (s : State) (st ld : Instruction)
  (v a : Z) :
  wf_State s ->
  (Dst st <= 10)%N -> (Src st <= 10)%N ->
  (Dst ld <= 10)%N -> (Src ld <= 10)%N ->
  (Opcode st = MEM_STW /\ v = Imm st)
  \/ (Opcode st = MEM_STXW /\ get_reg s (Src st) = Ok v) ->
  Opcode ld = MEM_LDXW ->
  effective_address s st = Ok a ->
  effective_address s ld = Ok a ->
  0 <= a -> a + 4 <= mem_len s ->
  exists s1 s2 r,
    Execute s st = Ok (s1, None)
    /\ Regs s1 = Regs s /\ PC s1 = PC s
    /\ Execute s1 ld = Ok (s2, None)
    /\ get_reg s2 (Dst ld) = Ok r
    /\ r = uint32 v /\ int32 r = int32 v
    /\ Memory s2 = Memory s1 /\ PC s2 = PC s1
    /\ (forall j, j <> Dst ld -> get_reg s2 j = get_reg s1 j).
Proof.
  intros Hwf Hdst Hsst Hdld Hsld Hst Hld Hea Hea' H0 Hin.
  pose proof (effective_address_in_int64 _ _ _ Hea) as Hint.
  apply effective_address_inv in Hea as (base & Hbase & Ha).
  apply effective_address_inv in Hea' as (base' & Hbase' & Ha').
  unfold base_reg in Hbase, Hbase'. rewrite Hld in Hbase'. simpl in Hbase'.
  assert (Hstore : exists x, uint32 x = uint32 v /\
            Execute s st = (discard_error (storeWord s a x))).
  { destruct Hst as [[Hop ->]|[Hop Hv]]; rewrite Hop in Hbase; simpl in Hbase.
    - exists (Imm st). split; [reflexivity|].
      unfold Execute. rewrite Hop, Hbase. cbn [mbind Res_bind]. now rewrite <- Ha.
    - exists (int32 v). split; [apply uint32_int32|].
      unfold Execute. rewrite Hop, Hbase, Hv. cbn [mbind Res_bind].
      now rewrite <- Ha. }
  destruct Hstore as (x & Hx & Hex).
  destruct (loadWord_storeWord s a x Hwf Hint H0 Hin)
    as (s1 & Hs1 & Hregs & Hpc & Hlen & Hload).
  assert (Hwf1 : wf_State s1).
  { destruct Hwf as [Hr Hm]. split; [now rewrite Hregs | now rewrite Hlen]. }
  exists s1, (set_Regs s1 (<[N.to_nat (Dst ld) := uint32 v]> (Regs s1))), (uint32 v).
  split; [rewrite Hex, Hs1; reflexivity|].
  split; [exact Hregs|]. split; [exact Hpc|].
  split.
  { unfold Execute, assign. rewrite Hld.
    assert (Hb1 : get_reg s1 (Src ld) = Ok base').
    { unfold get_reg in *. now rewrite Hregs. }
    rewrite Hb1. cbn [mbind Res_bind]. rewrite <- Ha', Hload, Hx.
    cbn [mbind Res_bind].
    now rewrite (put_reg_in_range s1 (Dst ld) _ Hwf1 Hdld). }
  split; [now apply get_put_reg_eq|].
  split; [reflexivity|]. split; [apply int32_uint32|].
  split; [reflexivity|]. split; [reflexivity|].
  intros j Hj. apply get_put_reg_ne. congruence.
Qed.

Lemma store_load_word_round_trip_witness :
  let s := {| Memory := [x00; x00; x00; x00; x00; x00; x00; x00];
              Regs := [0; 4; -1; 0; 0; 0; 0; 0; 0; 0; 3]; PC := 0 |} in
  let st := {| Opcode := MEM_STXW; Dst := 1; Src := 2;
               Offset := 0; Imm := 0 |} in
  let ld := {| Opcode := MEM_LDXW; Dst := 5; Src := 10;
               Offset := 1; Imm := 0 |} in
  exists s1 s2 r,
    Execute s st = Ok (s1, None)
    /\ Regs s1 = Regs s /\ PC s1 = PC s
    /\ Execute s1 ld = Ok (s2, None)
    /\ get_reg s2 (Dst ld) = Ok r
    /\ r = uint32 (-1) /\ int32 r = int32 (-1)
    /\ Memory s2 = Memory s1 /\ PC s2 = PC s1
    /\ (forall j, j <> Dst ld -> get_reg s2 j = get_reg s1 j).
Proof.
  intros s st ld.
  apply (store_load_word_round_trip s st ld (-1) 4).
  - split; [reflexivity | vm_compute; discriminate].
  - vm_compute; discriminate.
  - vm_compute; discriminate.
  - vm_compute; discriminate.
  - vm_compute; discriminate.
  - right. split; reflexivity.
  - reflexivity.
  - vm_compute; reflexivity.
  - vm_compute; reflexivity.
  - lia.
  - vm_compute; discriminate.
Defined.

(** ** The decoder *)

Lemma decode_loop_done (bytecode : list byte) (i : nat)
  (program : list Instruction) :
  (length bytecode <= i)%nat -> decode_loop bytecode i program = Ok program.
Proof.
  intros Hi. rewrite decode_loop_equation_1.
  destruct (decide (i < length bytecode)%nat) as [Hlt|Hge]; [lia|].
  reflexivity.
Qed.

Lemma decode_loop_step (bytecode : list byte) (i : nat)
  (program : list Instruction) :
  (i < length bytecode)%nat ->
  decode_loop bytecode i program =
  match decode_at bytecode i with
  | Ok insn =>
      match put_insn program (i `div` 8)%nat insn with
      | Ok program' => decode_loop bytecode (i + 8)%nat program'
      | Panic p => Panic p
      end
  | Panic p => Panic p
  end.
Proof.
  intros Hi. rewrite decode_loop_equation_1.
  destruct (decide (i < length bytecode)%nat) as [Hlt|Hge]; [|lia].
  apply decode_loop_clause_1_equation_1.
Qed.

(** A slot that lies within the input decodes to the record of its
    eight bytes. *)
Lemma decode_at_slot (bytecode : list byte) (i : nat)
  (b0 b1 b2 b3 b4 b5 b6 b7 : byte) :
  take 8 (drop i bytecode) = [b0; b1; b2; b3; b4; b5; b6; b7] ->
  decode_at bytecode i = Ok (Instruction_of_bytes b0 b1 b2 b3 b4 b5 b6 b7).
Proof.
  intros Hslot.
  assert (Hat : forall j b, [b0; b1; b2; b3; b4; b5; b6; b7] !! j = Some b ->
                            byte_at bytecode (i + j) = Ok b).
  { intros j b Hj. rewrite <- Hslot in Hj.
    apply lookup_take_Some in Hj as [Hj _]. rewrite lookup_drop in Hj.
    unfold byte_at. now rewrite Hj. }
  unfold decode_at.
  rewrite <- (Nat.add_0_r i) at 1.
  rewrite (Hat 0%nat b0), (Hat 1%nat b1), (Hat 2%nat b2), (Hat 3%nat b3),
    (Hat 4%nat b4), (Hat 5%nat b5), (Hat 6%nat b6), (Hat 7%nat b7)
    by reflexivity.
  reflexivity.
Qed.

Lemma slot_exists (bytecode : list byte) (i : nat) :
  (i + 8 <= length bytecode)%nat ->
  exists b0 b1 b2 b3 b4 b5 b6 b7,
    take 8 (drop i bytecode) = [b0; b1; b2; b3; b4; b5; b6; b7].
Proof.
  intros Hi.
  assert (Hlen : length (take 8 (drop i bytecode)) = 8%nat).
  { rewrite length_take, length_drop. lia. }
  destruct (take 8 (drop i bytecode))
    as [|b0 [|b1 [|b2 [|b3 [|b4 [|b5 [|b6 [|b7 [|b8 l]]]]]]]]];
    try discriminate Hlen.
  now exists b0, b1, b2, b3, b4, b5, b6, b7.
Qed.

(** A slot cut short by the end of the input: one of its eight index
    expressions is out of range. *)
Lemma decode_at_partial (bytecode : list byte) (i : nat) :
  (length bytecode < i + 8)%nat ->
  decode_at bytecode i = Panic IndexOutOfRange.
Proof.
  intros Hi. unfold decode_at, byte_at.
  rewrite (lookup_ge_None_2 bytecode (i + 7)) by lia.
  repeat match goal with
         | |- context [bytecode !! ?j] => destruct (bytecode !! j)
         end;
    reflexivity.
Qed.

Lemma put_insn_in_range (program : list Instruction) (k : nat)
  (insn : Instruction) :
  (k < length program)%nat -> put_insn program k insn = Ok (<[k := insn]> program).
Proof. intros Hk. unfold put_insn. destruct (decide _); [reflexivity | lia]. Qed.

Section DecodeLoop.
Variable bytecode : list byte.
Variables slots rest : nat.
Hypothesis Hlength : length bytecode = (8 * slots + rest)%nat.
Hypothesis Hrest : (rest < 8)%nat.

(** The loop at the start of slot [k], all slots being whole: it ends
    with every later entry of the program decoded and every earlier
    one kept. *)
Lemma decode_loop_whole (n : nat) :
  rest = 0%nat ->
  forall k program,
    (slots - k)%nat = n -> (k <= slots)%nat -> length program = slots ->
    exists program',
      decode_loop bytecode (8 * k) program = Ok program'
      /\ length program' = slots
      /\ (forall j, (j < k)%nat -> program' !! j = program !! j)
      /\ (forall j insn, (k <= j)%nat ->
            decode_at bytecode (8 * j) = Ok insn -> program' !! j = Some insn).
Proof using Hlength Hrest.
  intros Hr. induction n as [|n IH]; intros k program Hn Hk Hlen.
  - exists program. rewrite decode_loop_done by lia.
    repeat split; try assumption.
    intros j insn Hj Hdec.
    rewrite decode_at_partial in Hdec by lia. discriminate.
  - rewrite decode_loop_step by lia.
    destruct (slot_exists bytecode (8 * k)) as (b0 & b1 & b2 & b3 & b4 & b5 & b6 & b7 & Hslot);
      [lia|].
    rewrite (decode_at_slot _ _ _ _ _ _ _ _ _ _ Hslot).
    replace ((8 * k) `div` 8)%nat with k
      by (rewrite Nat.mul_comm, Nat.div_mul; lia).
    rewrite put_insn_in_range by lia.
    destruct (IH (S k) (<[k := Instruction_of_bytes b0 b1 b2 b3 b4 b5 b6 b7]> program))
      as (program' & Hloop & Hlen' & Hbelow & Hfrom);
      [lia | lia | now rewrite length_insert |].
    exists program'.
    replace (8 * k + 8)%nat with (8 * S k)%nat by lia.
    split; [exact Hloop|]. split; [exact Hlen'|]. split.
    + intros j Hj. rewrite Hbelow by lia.
      apply list_lookup_insert_ne. lia.
    + intros j insn Hj Hdec.
      destruct (decide (j = k)) as [->|Hne].
      * rewrite Hbelow by lia.
        rewrite list_lookup_insert_eq by lia.
        rewrite (decode_at_slot _ _ _ _ _ _ _ _ _ _ Hslot) in Hdec.
        congruence.
      * apply Hfrom; [lia | exact Hdec].
Qed.

(** The same loop when the input ends in a partial slot: it panics on
    reaching that slot. *)
Lemma decode_loop_partial (n : nat) :
  (0 < rest)%nat ->
  forall k program,
    (slots - k)%nat = n -> (k <= slots)%nat -> length program = slots ->
    decode_loop bytecode (8 * k) program = Panic IndexOutOfRange.
Proof using Hlength Hrest.
  intros Hr. induction n as [|n IH]; intros k program Hn Hk Hlen.
  - rewrite decode_loop_step by lia.
    now rewrite decode_at_partial by lia.
  - rewrite decode_loop_step by lia.
    destruct (slot_exists bytecode (8 * k)) as (b0 & b1 & b2 & b3 & b4 & b5 & b6 & b7 & Hslot);
      [lia|].
    rewrite (decode_at_slot _ _ _ _ _ _ _ _ _ _ Hslot).
    replace ((8 * k) `div` 8)%nat with k
      by (rewrite Nat.mul_comm, Nat.div_mul; lia).
    rewrite put_insn_in_range by lia.
    replace (8 * k + 8)%nat with (8 * S k)%nat by lia.
    apply IH; [lia | lia | now rewrite length_insert].
Qed.
End DecodeLoop.

(** *** The bit operations of the literal against the layout *)

Lemma nibble_low (b : byte) :
  N.land (Byte.to_N b) 0x0F = (Byte.to_N b mod 16)%N.
Proof. destruct b; reflexivity. Qed.

Lemma nibble_high (b : byte) :
  N.land (N.shiftr (Byte.to_N b) 4) 0x0F = (Byte.to_N b / 16)%N.
Proof. destruct b; reflexivity. Qed.

(** An [or] of a value below [2 ^ n] with a multiple of [2 ^ n] adds
    them. *)
Lemma lor_low_high (a c n : Z) :
  0 <= n -> 0 <= a < 2 ^ n -> Z.lor a (c * 2 ^ n) = a + c * 2 ^ n.
Proof.
  intros Hn Ha.
  rewrite <- Z.add_lor_land.
  assert (Hland : Z.land a (c * 2 ^ n) = 0).
  { apply Z.bits_inj'. intros k Hk.
    rewrite Z.land_spec, Z.bits_0.
    destruct (Z_lt_le_dec k n) as [Hlt|Hge].
    - rewrite Z.mul_pow2_bits_low by lia. apply andb_false_r.
    - rewrite <- (Z.mod_small a (2 ^ n)) by lia.
      rewrite Z.mod_pow2_bits_high by lia. reflexivity. }
  rewrite Hland. lia.
Qed.

(** The top byte of a field, shifted into place and wrapped to the
    width of the field, is a signed multiple of its weight. *)
Lemma signed_top_byte (bits y : Z) :
  8 <= bits -> 0 <= y < 256 ->
  signed bits (Z.shiftl y (bits - 8)) =
  (if y <? 128 then y else y - 256) * 2 ^ (bits - 8).
Proof.
  intros Hb Hy.
  rewrite Z.shiftl_mul_pow2 by lia.
  assert (Hp : 0 < 2 ^ (bits - 8)) by (apply Z.pow_pos_nonneg; lia).
  assert (H1 : 2 ^ (bits - 1) = 128 * 2 ^ (bits - 8)).
  { change 128 with (2 ^ 7). rewrite <- Z.pow_add_r by lia. f_equal. lia. }
  assert (H2 : 2 ^ bits = 256 * 2 ^ (bits - 8)).
  { change 256 with (2 ^ 8). rewrite <- Z.pow_add_r by lia. f_equal. lia. }
  rewrite signed_unsigned by nia.
  unfold sign_extend. rewrite H1, H2.
  destruct (y <? 128) eqn:E1;
    destruct (y * 2 ^ (bits - 8) <? 128 * 2 ^ (bits - 8)) eqn:E2; nia.
Qed.

Lemma Offset_of_bytes (b2 b3 : byte) :
  Z.lor (int16 (byte_val b2)) (int16 (Z.shiftl (int16 (byte_val b3)) 8))
  = sign_extend 16 (le_value [b2; b3]).
Proof.
  pose proof (byte_val_range b2) as H2. pose proof (byte_val_range b3) as H3.
  unfold int16. rewrite !(signed_small 16 (byte_val _)) by (simpl; lia).
  rewrite (signed_top_byte 16) by lia.
  change (2 ^ (16 - 8)) with (2 ^ 8).
  rewrite lor_low_high by (simpl; lia).
  unfold sign_extend, le_value. simpl foldr.
  change (2 ^ (16 - 1)) with 32768. change (2 ^ 16) with 65536.
  change (2 ^ 8) with 256.
  destruct (byte_val b3 <? 128) eqn:E1;
    destruct (byte_val b2 + 256 * (byte_val b3 + 256 * 0) <? 32768) eqn:E2;
    lia.
Qed.

Lemma Imm_of_bytes (b4 b5 b6 b7 : byte) :
  Z.lor
    (Z.lor
       (Z.lor (int32 (byte_val b4))
              (int32 (Z.shiftl (int32 (byte_val b5)) 8)))
       (int32 (Z.shiftl (int32 (byte_val b6)) 16)))
    (int32 (Z.shiftl (int32 (byte_val b7)) 24))
  = sign_extend 32 (le_value [b4; b5; b6; b7]).
Proof.
  pose proof (byte_val_range b4) as H4. pose proof (byte_val_range b5) as H5.
  pose proof (byte_val_range b6) as H6. pose proof (byte_val_range b7) as H7.
  unfold int32. rewrite !(signed_small 32 (byte_val _)) by (simpl; lia).
  rewrite (signed_top_byte 32) by lia.
  rewrite !Z.shiftl_mul_pow2 by lia.
  rewrite !(signed_small 32 (byte_val _ * _)) by (simpl; lia).
  change (2 ^ (32 - 8)) with (2 ^ 24).
  rewrite (lor_low_high (byte_val b4)) by (simpl; lia).
  rewrite (lor_low_high (_ + _) _ 16) by (simpl; lia).
  rewrite lor_low_high by (simpl; lia).
  unfold sign_extend, le_value. simpl foldr.
  change (2 ^ (32 - 1)) with 2147483648. change (2 ^ 32) with 4294967296.
  change (2 ^ 8) with 256. change (2 ^ 16) with 65536.
  change (2 ^ 24) with 16777216.
  destruct (byte_val b7 <? 128) eqn:E1;
    match goal with
    | |- context [?x <? 2147483648] => destruct (x <? 2147483648) eqn:E2
    end; lia.
Qed.

(** The literal of the decoding loop builds the record of the layout. *)
Lemma Instruction_of_bytes_layout (b0 b1 b2 b3 b4 b5 b6 b7 : byte) :
  Instruction_of_bytes b0 b1 b2 b3 b4 b5 b6 b7
  = slot_record b0 b1 b2 b3 b4 b5 b6 b7.
Proof.
  unfold Instruction_of_bytes, slot_record.
  now rewrite nibble_low, nibble_high, Offset_of_bytes, Imm_of_bytes.
Qed.

(** C7. On an input made of whole 8-byte slots the decoder returns
    one record per slot, in source order: entry [k] of the program is
    the record that the layout assigns to the eight bytes of slot
    [k]. *)
Theorem decode_layout (bytecode : list byte) :
  (length bytecode mod 8 = 0)%nat ->
  exists program,
    decode bytecode = Ok program
    /\ length program = (length bytecode / 8)%nat
    /\ forall k b0 b1 b2 b3 b4 b5 b6 b7,
         take 8 (drop (8 * k) bytecode) = [b0; b1; b2; b3; b4; b5; b6; b7] ->
         program !! k = Some (slot_record b0 b1 b2 b3 b4 b5 b6 b7).
Proof.
  intros Hmod.
  set (slots := (length bytecode / 8)%nat).
  assert (Hlength : length bytecode = (8 * slots + 0)%nat).
  { pose proof (Nat.div_mod_eq (length bytecode) 8). unfold slots. lia. }
  destruct (decode_loop_whole bytecode slots 0 Hlength ltac:(lia) slots eq_refl
              0%nat (replicate slots zero_Instruction))
    as (program & Hloop & Hlen & _ & Hfrom);
    [lia | lia | apply length_replicate |].
  exists program. split; [exact Hloop|]. split; [exact Hlen|].
  intros k b0 b1 b2 b3 b4 b5 b6 b7 Hslot.
  rewrite <- Instruction_of_bytes_layout.
  apply Hfrom; [lia|]. now apply decode_at_slot.
Qed.

Lemma decode_layout_witness :
  exists program,
    decode main_bytecode = Ok program
    /\ length program = (length main_bytecode / 8)%nat
    /\ forall k b0 b1 b2 b3 b4 b5 b6 b7,
         take 8 (drop (8 * k) main_bytecode)
         = [b0; b1; b2; b3; b4; b5; b6; b7] ->
         program !! k = Some (slot_record b0 b1 b2 b3 b4 b5 b6 b7).
Proof. apply decode_layout. reflexivity. Defined.

(** C4, as the claim states it, fails: on a nine-byte input the run
    ends in a panic of the decoding loop; no error of any kind is
    reported and no final state is produced. *)
Lemma partial_slot_reports_no_fault :
  let bytecode := [BRANCH_EXIT; x00; x00; x00; x00; x00; x00; x00;
                   BRANCH_EXIT] in
  (length bytecode mod 8 = 1)%nat
  /\ forall fuel,
       Interpret fuel bytecode = Crashed IndexOutOfRange
       /\ ~ (exists e s, Interpret fuel bytecode = Stopped e s).
Proof.
  split; [reflexivity|]. intros fuel.
  assert (H : Interpret fuel
                [BRANCH_EXIT; x00; x00; x00; x00; x00; x00; x00; BRANCH_EXIT]
              = Crashed IndexOutOfRange).
  { unfold Interpret.
    replace (decode _) with (@Panic (list Instruction) IndexOutOfRange)
      by (vm_compute; reflexivity).
    reflexivity. }
  split; [exact H|]. intros (e & s & Hs). rewrite H in Hs. discriminate.
Qed.

(** C4, amended. On every input whose length is not a multiple of 8
    the decoding loop indexes past the end of the input when it
    reaches the trailing partial slot: the run ends in an
    index-out-of-range panic before any instruction is executed,
    whatever the step budget. *)
Theorem partial_slot_panics (fuel : nat) (bytecode : list byte) :
  (length bytecode mod 8 <> 0)%nat ->
  decode bytecode = Panic IndexOutOfRange
  /\ Interpret fuel bytecode = Crashed IndexOutOfRange.
Proof.
  intros Hmod.
  assert (Hdec : decode bytecode = Panic IndexOutOfRange).
  { set (slots := (length bytecode / 8)%nat).
    set (rest := (length bytecode mod 8)%nat).
    assert (Hlength : length bytecode = (8 * slots + rest)%nat)
      by apply Nat.div_mod_eq.
    assert (Hrest : (rest < 8)%nat) by (apply Nat.mod_upper_bound; lia).
    apply (decode_loop_partial bytecode slots rest Hlength Hrest slots
             ltac:(fold rest; lia) 0%nat);
      [lia | lia | apply length_replicate]. }
  split; [exact Hdec|]. unfold Interpret. now rewrite Hdec.
Qed.

Lemma partial_slot_panics_witness :
  decode (main_bytecode ++ [x07; x01]) = Panic IndexOutOfRange
  /\ Interpret 100 (main_bytecode ++ [x07; x01]) = Crashed IndexOutOfRange.
Proof. apply partial_slot_panics. vm_compute. discriminate. Defined.

(** ** Register selectors *)

(** The helpers return whenever address plus width is an [int64]. *)
Section HelpersReturn.
Variable s : State.
Variable a : Z.
Hypothesis Hwf : wf_State s.
Hypothesis Ha : in_int64 a.

Ltac returns w :=
  intros Hov;
  destruct ((a <? 0) || (mem_len s <? int64 (a + w))) eqn:Hg;
  [eauto|];
  apply orb_false_iff in Hg as [Hg1 Hg2];
  unfold in_int64, min_int64, max_int64 in *;
  rewrite int64_small in Hg2
    by (unfold in_int64, min_int64, max_int64; lia);
  unfold Uint, PutUint, index_ok;
  try rewrite (slice_ok_in_bounds s a w)
    by (assumption || lia || (unfold in_int64, min_int64, max_int64; lia));
  try (replace ((0 <=? a) && (a <? mem_len s)) with true
         by (symmetry; apply andb_true_iff; split; lia));
  cbn [mbind Res_bind]; eauto.

Lemma loadWord_returns :
  a + 4 <= max_int64 -> exists v, loadWord s a = Ok v.
Proof using Hwf Ha. unfold loadWord. returns 4. Qed.

Lemma loadHalfWord_returns :
  a + 2 <= max_int64 -> exists v, loadHalfWord s a = Ok v.
Proof using Hwf Ha. unfold loadHalfWord. returns 2. Qed.

Lemma loadByte_returns :
  a + 1 <= max_int64 -> exists v, loadByte s a = Ok v.
Proof using Hwf Ha. unfold loadByte. returns 1. Qed.

Lemma loadDoubleWord_returns :
  a + 8 <= max_int64 -> exists v, loadDoubleWord s a = Ok v.
Proof using Hwf Ha. unfold loadDoubleWord. returns 8. Qed.

Lemma storeWord_returns (v : Z) :
  a + 4 <= max_int64 -> exists r, storeWord s a v = Ok r.
Proof using Hwf Ha. unfold storeWord. returns 4. Qed.

Lemma storeHalfWord_returns (v : Z) :
  a + 2 <= max_int64 -> exists r, storeHalfWord s a v = Ok r.
Proof using Hwf Ha. unfold storeHalfWord. returns 2. Qed.

Lemma storeByte_returns (v : Z) :
  a + 1 <= max_int64 -> exists r, storeByte s a v = Ok r.
Proof using Hwf Ha. unfold storeByte. returns 1. Qed.

Lemma storeDoubleWord_returns (v : Z) :
  a + 8 <= max_int64 -> exists r, storeDoubleWord s a v = Ok r.
Proof using Hwf Ha. unfold storeDoubleWord. returns 8. Qed.
End HelpersReturn.

Lemma int64_Imm_zero (instr : Instruction) :
  wf_Instruction instr -> int64 (Imm instr) = 0 -> Imm instr = 0.
Proof.
  intros (_ & _ & _ & Himm) H. unfold in_int32 in Himm.
  rewrite int64_small in H; [exact H|].
  unfold in_int64, min_int64, max_int64. lia.
Qed.

Ltac rewrite_regs :=
  repeat match goal with
         | H : get_reg _ _ = Ok _ |- _ => rewrite H
         end.

Ltac put_regs :=
  cbn [mbind Res_bind];
  rewrite ?put_reg_in_range by (assumption || lia);
  cbn [mbind Res_bind].

(** A nonzero divisor: the quotient or remainder is stored. *)
Ltac divide Hnz Hwfi :=
  let Ez := fresh "Ez" in
  unfold quo, rem;
  match goal with
  | |- context [?d =? 0] => destruct (d =? 0) eqn:Ez
  end;
  [ exfalso; apply Hnz; apply Z.eqb_eq in Ez;
    first [ left; split; [auto | now apply int64_Imm_zero]
          | right; split; [auto | rewrite <- Ez; assumption] ]
  | put_regs; eexists; reflexivity ].

(** An access whose address plus width is an [int64]: the helper
    returns. *)
Ltac access Hwf Hfit :=
  simpl in Hfit;
  repeat match goal with
         | H : get_reg _ _ = Ok _ |- _ => rewrite H in Hfit
         end;
  cbn [mbind Res_bind] in Hfit;
  match goal with
  | |- context [loadWord ?s0 ?a] =>
      destruct (loadWord_returns s0 a Hwf (int64_range _)
                  (Hfit _ _ _ eq_refl eq_refl)) as [r ->]
  | |- context [loadHalfWord ?s0 ?a] =>
      destruct (loadHalfWord_returns s0 a Hwf (int64_range _)
                  (Hfit _ _ _ eq_refl eq_refl)) as [r ->]
  | |- context [loadByte ?s0 ?a] =>
      destruct (loadByte_returns s0 a Hwf (int64_range _)
                  (Hfit _ _ _ eq_refl eq_refl)) as [r ->]
  | |- context [loadDoubleWord ?s0 ?a] =>
      destruct (loadDoubleWord_returns s0 a Hwf (int64_range _)
                  (Hfit _ _ _ eq_refl eq_refl)) as [r ->]
  | |- context [storeWord ?s0 ?a ?v] =>
      destruct (storeWord_returns s0 a Hwf (int64_range _) v
                  (Hfit _ _ _ eq_refl eq_refl)) as [[s' e'] ->]
  | |- context [storeHalfWord ?s0 ?a ?v] =>
      destruct (storeHalfWord_returns s0 a Hwf (int64_range _) v
                  (Hfit _ _ _ eq_refl eq_refl)) as [[s' e'] ->]
  | |- context [storeByte ?s0 ?a ?v] =>
      destruct (storeByte_returns s0 a Hwf (int64_range _) v
                  (Hfit _ _ _ eq_refl eq_refl)) as [[s' e'] ->]
  | |- context [storeDoubleWord ?s0 ?a ?v] =>
      destruct (storeDoubleWord_returns s0 a Hwf (int64_range _) v
                  (Hfit _ _ _ eq_refl eq_refl)) as [[s' e'] ->]
  end;
  put_regs; eexists; reflexivity.

(** [Execute] returns when the selectors its case uses are in range,
    no divisor is zero and no address computation overflows. *)
Lemma Execute_returns (s : State) (instr : Instruction) :
  wf_State s -> wf_Instruction instr ->
  (uses_dst (Opcode instr) = true -> (Dst instr <= 10)%N) ->
  (uses_src (Opcode instr) = true -> (Src instr <= 10)%N) ->
  ~ zero_divisor s instr -> ~ address_overflow s instr ->
  exists r, Execute s instr = Ok r.
Proof.
  intros Hwf Hwfi Hd Hs Hnz Hno.
  assert (Hfit : forall k w a,
             mem_access (Opcode instr) = Some (k, w) ->
             effective_address s instr = Ok a -> a + w <= max_int64).
  { intros k w a Hacc Hea.
    destruct (Z_le_gt_dec (a + w) max_int64) as [Hle|Hgt]; [exact Hle|].
    exfalso. apply Hno. exists k, w, a. repeat split; (assumption || lia). }
  unfold effective_address, base_reg in Hfit.
  unfold zero_divisor in Hnz.
  destruct (Opcode instr) eqn:Hop; simpl in Hd, Hs;
    try (specialize (Hd eq_refl);
         destruct (get_reg_in_range s (Dst instr) Hwf Hd) as [x Hx]);
    try (specialize (Hs eq_refl);
         destruct (get_reg_in_range s (Src instr) Hwf Hs) as [y Hy]);
    unfold Execute; rewrite Hop;
    unfold assign_op, assign, branch, cmp2, discard_error, pure2;
    rewrite_regs; put_regs;
    first [ eexists; reflexivity | divide Hnz Hwfi | access Hwf Hfit ].
Qed.

(** A case that indexes the register array with a selector above 10
    panics. *)
Lemma selector_out_of_range_panics (s : State) (instr : Instruction) :
  wf_State s ->
  (uses_dst (Opcode instr) = true /\ (10 < Dst instr)%N)
  \/ (uses_src (Opcode instr) = true /\ (10 < Src instr)%N) ->
  exists p, Execute s instr = Panic p.
Proof.
  intros Hwf Huse.
  assert (Hdst : (exists x, get_reg s (Dst instr) = Ok x /\ (Dst instr <= 10)%N)
                 \/ (get_reg s (Dst instr) = Panic IndexOutOfRange
                     /\ (10 < Dst instr)%N)).
  { destruct (N.le_gt_cases (Dst instr) 10) as [Hle|Hgt].
    - left. destruct (get_reg_in_range s _ Hwf Hle) as [x Hx]. eauto.
    - right. split; [now apply get_reg_out_of_range | exact Hgt]. }
  assert (Hsrc : (exists y, get_reg s (Src instr) = Ok y /\ (Src instr <= 10)%N)
                 \/ (get_reg s (Src instr) = Panic IndexOutOfRange
                     /\ (10 < Src instr)%N)).
  { destruct (N.le_gt_cases (Src instr) 10) as [Hle|Hgt].
    - left. destruct (get_reg_in_range s _ Hwf Hle) as [y Hy]. eauto.
    - right. split; [now apply get_reg_out_of_range | exact Hgt]. }
  destruct Hdst as [(x & Hx & Hd)|[Hx Hd]];
    destruct Hsrc as [(y & Hy & Hs)|[Hy Hs]];
    destruct (Opcode instr) eqn:Hop; simpl in Huse;
    (destruct Huse as [[Hu Hgt]|[Hu Hgt]]; try discriminate Hu; try lia);
    unfold Execute; rewrite Hop;
    unfold assign_op, assign, branch, cmp2, discard_error, pure2;
    rewrite ?Hx, ?Hy; cbn [mbind Res_bind];
    try (eexists; reflexivity);
    repeat match goal with
      | |- context [loadWord ?s0 ?a] => destruct (loadWord s0 a)
      | |- context [loadHalfWord ?s0 ?a] => destruct (loadHalfWord s0 a)
      | |- context [loadByte ?s0 ?a] => destruct (loadByte s0 a)
      | |- context [loadDoubleWord ?s0 ?a] => destruct (loadDoubleWord s0 a)
      end;
    cbn [mbind Res_bind];
    rewrite ?put_reg_out_of_range by assumption;
    cbn [mbind Res_bind];
    eexists; reflexivity.
Qed.

(** The selectors that the decoder produces are nibbles. *)
Lemma decoded_selectors (b0 b1 b2 b3 b4 b5 b6 b7 : byte) :
  (Dst (Instruction_of_bytes b0 b1 b2 b3 b4 b5 b6 b7) <= 15)%N
  /\ (Src (Instruction_of_bytes b0 b1 b2 b3 b4 b5 b6 b7) <= 15)%N.
Proof.
  cbn [Dst Src Instruction_of_bytes]. rewrite nibble_low, nibble_high.
  pose proof (Byte.to_N_bounded b1) as Hb.
  pose proof (N.mod_lt (Byte.to_N b1) 16 ltac:(discriminate)) as Hm.
  split; [lia|].
  apply N.lt_succ_r. apply N.Div0.div_lt_upper_bound. simpl. lia.
Qed.

Lemma le_value_range (bs : list byte) :
  0 <= le_value bs < 2 ^ (8 * Z.of_nat (length bs)).
Proof.
  induction bs as [|b bs IH]; simpl le_value.
  - simpl. lia.
  - pose proof (byte_val_range b).
    replace (8 * Z.of_nat (length (b :: bs)))
      with (8 + 8 * Z.of_nat (length bs)) by (simpl length; lia).
    rewrite Z.pow_add_r by lia. change (2 ^ 8) with 256. lia.
Qed.

(** The decoder only builds instructions that respect the types of
    their fields. *)
Lemma decoded_wf (b0 b1 b2 b3 b4 b5 b6 b7 : byte) :
  wf_Instruction (Instruction_of_bytes b0 b1 b2 b3 b4 b5 b6 b7).
Proof.
  destruct (decoded_selectors b0 b1 b2 b3 b4 b5 b6 b7) as [Hd Hs].
  unfold wf_Instruction. split; [lia|]. split; [lia|].
  rewrite Instruction_of_bytes_layout. cbn [Offset Imm slot_record].
  split.
  - apply (sign_extend_range 16); [lia|]. apply (le_value_range [b2; b3]).
  - apply (sign_extend_range 32); [lia|].
    apply (le_value_range [b4; b5; b6; b7]).
Qed.

(** C10, as the claim states it, fails in both directions: with both
    selectors at 0 a division by an immediate zero makes [Execute]
    panic, and with both selectors at 15 the multiply-by-register
    case returns on every state. *)
Lemma selectors_in_range_is_not_totality :
  (let instr := {| Opcode := ALU64_DIV_IMM; Dst := 0; Src := 0;
                   Offset := 0; Imm := 0 |} in
   wf_State zero_State /\ (Dst instr <= 10)%N /\ (Src instr <= 10)%N
   /\ Execute zero_State instr = Panic IntegerDivideByZero)
  /\ (let instr := {| Opcode := ALU64_MUL_REG; Dst := 15; Src := 15;
                      Offset := 0; Imm := 0 |} in
      forall s, Execute s instr = Ok (s, None)).
Proof.
  split.
  - repeat split; vm_compute; discriminate.
  - intros instr s. reflexivity.
Qed.

(** C10, amended. The decoder masks dst and src to four bits, so a
    decoded selector can be as large as 15, while the register file
    has eleven entries: a register access is in range exactly when its
    index is at most 10.  [Execute] returns whenever every selector
    that the case of its opcode uses is at most 10 (in particular when
    dst <= 10 and src <= 10), provided that no divisor is zero and no
    address computation overflows; it panics as soon as a selector
    that the case uses is above 10. *)
Theorem register_selectors (s : State) (instr : Instruction) :
  wf_State s -> wf_Instruction instr ->
  (forall b0 b1 b2 b3 b4 b5 b6 b7,
      (Dst (Instruction_of_bytes b0 b1 b2 b3 b4 b5 b6 b7) <= 15)%N
      /\ (Src (Instruction_of_bytes b0 b1 b2 b3 b4 b5 b6 b7) <= 15)%N)
  /\ (forall b0 b2 b3 b4 b5 b6 b7,
        Dst (Instruction_of_bytes b0 xff b2 b3 b4 b5 b6 b7) = 15%N
        /\ Src (Instruction_of_bytes b0 xff b2 b3 b4 b5 b6 b7) = 15%N)
  /\ length (Regs s) = 11%nat
  /\ (forall i v, (i <= 10)%N ->
        (exists x, get_reg s i = Ok x) /\ (exists s', put_reg s i v = Ok s'))
  /\ (forall i v, (10 < i)%N ->
        get_reg s i = Panic IndexOutOfRange
        /\ put_reg s i v = Panic IndexOutOfRange)
  /\ ((uses_dst (Opcode instr) = true -> (Dst instr <= 10)%N) ->
      (uses_src (Opcode instr) = true -> (Src instr <= 10)%N) ->
      ~ zero_divisor s instr -> ~ address_overflow s instr ->
      exists r, Execute s instr = Ok r)
  /\ ((uses_dst (Opcode instr) = true /\ (10 < Dst instr)%N)
      \/ (uses_src (Opcode instr) = true /\ (10 < Src instr)%N) ->
      exists p, Execute s instr = Panic p).
Proof.
  intros Hwf Hwfi.
  split; [apply decoded_selectors|].
  split; [intros; split; reflexivity|].
  split; [exact (proj1 Hwf)|].
  split.
  { intros i v Hi. split; [now apply get_reg_in_range|].
    rewrite put_reg_in_range by assumption. eauto. }
  split.
  { intros i v Hi.
    split; [now apply get_reg_out_of_range | now apply put_reg_out_of_range]. }
  split; [now apply Execute_returns | now apply selector_out_of_range_panics].
Qed.

Lemma register_selectors_witness :
  let instr := Instruction_of_bytes ALU64_MOV_IMM x0b x00 x00 x05 x00 x00 x00 in
  Dst instr = 11%N
  /\ uses_dst (Opcode instr) = true
  /\ exists p, Execute zero_State instr = Panic p.
Proof.
  intros instr.
  split; [reflexivity|]. split; [reflexivity|].
  refine (proj2 (proj2 (proj2 (proj2 (proj2 (proj2
    (register_selectors zero_State instr _ _)))))) _).
  - split; [reflexivity | vm_compute; discriminate].
  - vm_compute. repeat split; (reflexivity || discriminate).
  - left. split; [reflexivity | reflexivity].
Defined.

(** * Further properties *)

(** ** What one call of [Execute] changes *)

Lemma put_le_lookup_above (n : nat) :
  forall mem a v i, (a + n <= i)%nat -> put_le n mem a v !! i = mem !! i.
Proof.
  induction n as [|n IH]; intros mem a v i Hi; simpl; [reflexivity|].
  rewrite IH by lia. apply list_lookup_insert_ne. lia.
Qed.

Lemma put_reg_inv (s s' : State) (i : N) (v : Z) :
  put_reg s i v = Ok s' -> s' = set_Regs s (<[N.to_nat i := v]> (Regs s)).
Proof. unfold put_reg. destruct (decide _); [now intros [= <-] | discriminate]. Qed.

Lemma assign_op_inv (s s' : State) (dst : N) (op : Z -> Z -> Res Z)
  (y : Res Z) (e : option error) :
  assign_op s dst op y = Ok (s', e) ->
  exists x y' v,
    get_reg s dst = Ok x /\ y = Ok y' /\ op x y' = Ok v
    /\ s' = set_Regs s (<[N.to_nat dst := v]> (Regs s)) /\ e = None.
Proof.
  unfold assign_op.
  destruct (get_reg s dst) as [x|]; [|discriminate].
  destruct y as [y'|]; [|discriminate]. cbn [mbind Res_bind].
  destruct (op x y') as [v|] eqn:Hv; [|discriminate]. cbn [mbind Res_bind].
  destruct (put_reg s dst v) as [s0|] eqn:Hput; [|discriminate].
  cbn [mbind Res_bind]. intros [= <- <-].
  apply put_reg_inv in Hput. exists x, y', v.
  repeat split; (reflexivity || assumption).
Qed.

Lemma assign_inv (s s' : State) (dst : N) (v : Res Z) (e : option error) :
  assign s dst v = Ok (s', e) ->
  exists v', v = Ok v'
             /\ s' = set_Regs s (<[N.to_nat dst := v']> (Regs s)) /\ e = None.
Proof.
  unfold assign. destruct v as [v'|]; [|discriminate]. cbn [mbind Res_bind].
  destruct (put_reg s dst v') as [s0|] eqn:Hput; [|discriminate].
  cbn [mbind Res_bind]. intros [= <- <-].
  apply put_reg_inv in Hput. exists v'.
  repeat split; (reflexivity || assumption).
Qed.

Lemma branch_inv (s s' : State) (off : Z) (cond : Res bool) (e : option error) :
  branch s off cond = Ok (s', e) ->
  exists c, cond = Ok c
            /\ s' = (if c then set_PC s (int64 (PC s + off)) else s)
            /\ e = None.
Proof.
  unfold branch. destruct cond as [c|]; [|discriminate]. cbn [mbind Res_bind].
  intros [= <- <-]. now exists c.
Qed.

Lemma discard_error_inv (r : Res (State * option error)) (s' : State)
  (e : option error) :
  discard_error r = Ok (s', e) -> e = None /\ exists e0, r = Ok (s', e0).
Proof.
  unfold discard_error. destruct r as [[s0 e0]|]; [|discriminate].
  cbn [mbind Res_bind]. intros [= <- <-]. eauto.
Qed.

(** A store helper that returns has left everything but the accessed
    bytes alone. *)
Section StoreFrame.
Variables s s' : State.
Variables a v : Z.
Variable e : option error.

Ltac frame w :=
  let Hg := fresh "Hg" in
  let Hs := fresh "Hs" in
  let Hi := fresh "Hi" in
  match goal with
  | |- context [if ?g then _ else _] => destruct g eqn:Hg
  end;
  [ intros [= <- <-]; repeat split; intros; reflexivity |];
  apply orb_false_iff in Hg as [Hg _];
  unfold PutUint, slice_ok, index_ok;
  match goal with
  | |- context [if ?g then _ else _] => destruct g eqn:Hs
  end; [|discriminate];
  cbn [mbind Res_bind]; intros [= <- <-];
  repeat split; cbn [Memory Regs PC set_Memory];
  [ rewrite ?length_insert; reflexivity
  | intros i Hi; rewrite ?list_lookup_insert_ne by lia; reflexivity ].

Lemma storeWord_frame : storeWord s a v = Ok (s', e) -> store_frame s s' a 4.
Proof using Type. unfold storeWord, store_frame. frame 4. Qed.

Lemma storeHalfWord_frame : storeHalfWord s a v = Ok (s', e) -> store_frame s s' a 2.
Proof using Type. unfold storeHalfWord, store_frame. frame 2. Qed.

Lemma storeByte_frame : storeByte s a v = Ok (s', e) -> store_frame s s' a 1.
Proof using Type. unfold storeByte, store_frame. frame 1. Qed.

Lemma storeDoubleWord_frame :
  storeDoubleWord s a v = Ok (s', e) -> store_frame s s' a 8.
Proof using Type. unfold storeDoubleWord, store_frame. frame 8. Qed.
End StoreFrame.

Ltac store_effect Hex Hop lemma w :=
  let He := fresh "He" in
  let e0 := fresh "e0" in
  let x := fresh "x" in
  let Hx := fresh "Hx" in
  let y := fresh "y" in
  apply discard_error_inv in Hex as [He [e0 Hex]];
  match type of Hex with
  | context [get_reg ?s (Dst ?instr)] =>
      destruct (get_reg s (Dst instr)) as [x|] eqn:Hx; [|discriminate Hex];
      cbn [mbind Res_bind] in Hex;
      try (destruct (get_reg s (Src instr)) as [y|]; [|discriminate Hex];
           cbn [mbind Res_bind] in Hex);
      apply lemma in Hex;
      apply (eff_store s instr w (int64 (x + int64 (Offset instr))));
      [ rewrite Hop; reflexivity
      | unfold effective_address, base_reg; rewrite Hop; simpl mem_access;
        cbn iota; rewrite Hx; reflexivity
      | exact Hex ]
  end.

(** Every successful call of [Execute] is one of the five effects. *)
Lemma Execute_effect (s s' : State) (instr : Instruction) (e : option error) :
  Execute s instr = Ok (s', e) -> effect s instr s'.
Proof.
  intros Hex. unfold Execute in Hex.
  destruct (Opcode instr) eqn:Hop;
    first
      [ (* no statement, exit, no case *)
        injection Hex as <- <-; apply eff_none
      | apply assign_op_inv in Hex as (x & y & v & _ & _ & _ & -> & _);
        apply eff_reg; rewrite Hop; reflexivity
      | apply assign_inv in Hex as (v & _ & -> & _);
        apply eff_reg; rewrite Hop; reflexivity
      | apply branch_inv in Hex as ([|] & _ & -> & _);
        [ apply eff_jump; rewrite Hop; reflexivity | apply eff_none ]
      | store_effect Hex Hop storeWord_frame 4
      | store_effect Hex Hop storeHalfWord_frame 2
      | store_effect Hex Hop storeByte_frame 1
      | store_effect Hex Hop storeDoubleWord_frame 8
      | (* call *)
        unfold put_reg in Hex; destruct (decide _); [|discriminate Hex];
        cbn [mbind Res_bind] in Hex; injection Hex as <- <-;
        apply eff_call; exact Hop ].
Qed.

(** X1. A call of [Execute] that returns never resizes the machine:
    the memory keeps its length and the register file its eleven
    entries, so a well-formed state stays well-formed. *)
Theorem Execute_keeps_sizes (s s' : State) (instr : Instruction)
  (e : option error) :
  Execute s instr = Ok (s', e) ->
  length (Memory s') = length (Memory s)
  /\ length (Regs s') = length (Regs s)
  /\ (wf_State s -> wf_State s').
Proof.
  intros Hex. apply Execute_effect in Hex.
  assert (H : length (Memory s') = length (Memory s)
              /\ length (Regs s') = length (Regs s)).
  { destruct Hex as [| v _ | _ | _ | w a s' _ _ (Hr & _ & Hm & _)];
      cbn [Memory Regs set_Regs set_PC]; rewrite ?length_insert;
      try (split; reflexivity).
    split; [exact Hm | now rewrite Hr]. }
  destruct H as [Hm Hr]. split; [exact Hm|]. split; [exact Hr|].
  intros [Hregs Hmem]. split; [now rewrite Hr|].
  unfold mem_len in *. now rewrite Hm.
Qed.

Lemma Execute_keeps_sizes_witness :
  let s := {| Memory := [x00; x00; x00; x00];
              Regs := [0; 0; 7; 0; 0; 0; 0; 0; 0; 0; 0]; PC := 0 |} in
  let instr := {| Opcode := MEM_STXH; Dst := 1; Src := 2;
                  Offset := 2; Imm := 0 |} in
  let s' := {| Memory := [x00; x00; x07; x00];
               Regs := [0; 0; 7; 0; 0; 0; 0; 0; 0; 0; 0]; PC := 0 |} in
  length (Memory s') = length (Memory s)
  /\ length (Regs s') = length (Regs s)
  /\ (wf_State s -> wf_State s').
Proof.
  intros s instr s'.
  apply (Execute_keeps_sizes s s' instr None). vm_compute. reflexivity.
Defined.

(** The loop of [Interpret] keeps the sizes as well. *)
Lemma run_keeps_sizes (fuel : nat) (program : list Instruction) :
  forall s,
    match run fuel program s with
    | Stopped _ s' | RanOff s' | OutOfFuel s' =>
        length (Memory s') = length (Memory s)
        /\ length (Regs s') = length (Regs s)
    | Crashed _ => True
    end.
Proof.
  induction fuel as [|fuel IH]; intros s; simpl.
  - destruct (PC s <? _); split; reflexivity.
  - destruct (PC s <? _); [|split; reflexivity].
    destruct (fetch program (PC s)) as [instr|]; [|exact I].
    destruct (Execute s instr) as [[s1 [e|]]|] eqn:Hex; [| |exact I].
    + apply Execute_effect in Hex.
      destruct Hex as [| v _ | _ | _ | w a s1 _ _ (Hr & _ & Hm & _)];
        cbn [Memory Regs set_Regs set_PC]; rewrite ?length_insert;
        try (split; reflexivity).
      split; [exact Hm | now rewrite Hr].
    + specialize (IH (set_PC s1 (int64 (PC s1 + 1)))).
      assert (H : length (Memory s1) = length (Memory s)
                  /\ length (Regs s1) = length (Regs s)).
      { apply Execute_effect in Hex.
        destruct Hex as [| v _ | _ | _ | w a s1 _ _ (Hr & _ & Hm & _)];
          cbn [Memory Regs set_Regs set_PC]; rewrite ?length_insert;
          try (split; reflexivity).
        split; [exact Hm | now rewrite Hr]. }
      destruct (run fuel program _); try exact I;
        cbn [Memory Regs set_PC] in IH; destruct IH as [IH1 IH2];
        destruct H as [H1 H2]; split; congruence.
Qed.

(** X2. [Interpret] runs on the zero value of the state, whose memory
    is nil, and nothing ever allocates it: however the run ends short
    of a panic, the final state has an empty memory and eleven
    registers. *)
Theorem Interpret_memory_stays_empty (fuel : nat) (bytecode : list byte) :
  match Interpret fuel bytecode with
  | Stopped _ s | RanOff s | OutOfFuel s =>
      Memory s = [] /\ length (Regs s) = 11%nat
  | Crashed _ => True
  end.
Proof.
  unfold Interpret. destruct (decode bytecode) as [program|]; [|exact I].
  pose proof (run_keeps_sizes fuel program zero_State) as H.
  destruct (run fuel program zero_State) as [e s|s|p|s]; try exact I;
    destruct H as [Hm Hr]; (split; [|exact Hr]);
    simpl in Hm; now apply length_zero_iff_nil.
Qed.

(** ** The errors of [Execute] *)

(** X3. [Execute] returns an error in two cases only, and with the
    state untouched in both: "exit" for the exit opcode, "unsupported
    opcode" for an opcode without a case in the switch.  The "memory
    access out of bounds" error of the store helpers never leaves
    [Execute]. *)
Theorem Execute_errors (s s' : State) (instr : Instruction) (e : error) :
  Execute s instr = Ok (s', Some e) ->
  s' = s
  /\ e <> err_out_of_bounds
  /\ ((Opcode instr = BRANCH_EXIT /\ e = err_exit)
      \/ (dispatched (Opcode instr) = false /\ e = err_unsupported)).
Proof.
  intros Hex. unfold Execute in Hex.
  destruct (Opcode instr) eqn:Hop;
    first
      [ discriminate Hex
      | injection Hex as <- <-;
        (split; [reflexivity|]); (split; [discriminate|]);
        first [ left; split; reflexivity | right; split; reflexivity ]
      | apply assign_op_inv in Hex as (x & y & v & _ & _ & _ & _ & [=])
      | apply assign_inv in Hex as (v & _ & _ & [=])
      | apply branch_inv in Hex as (c & _ & _ & [=])
      | apply discard_error_inv in Hex as [[=] _]
      | unfold put_reg in Hex; destruct (decide _); discriminate Hex ].
Qed.

Lemma Execute_errors_witness :
  let instr := {| Opcode := MEM_LDABSW; Dst := 0; Src := 0;
                  Offset := 0; Imm := 0 |} in
  zero_State = zero_State
  /\ err_unsupported <> err_out_of_bounds
  /\ ((Opcode instr = BRANCH_EXIT /\ err_unsupported = err_exit)
      \/ (dispatched (Opcode instr) = false
          /\ err_unsupported = err_unsupported)).
Proof.
  intros instr.
  apply (Execute_errors zero_State zero_State instr err_unsupported).
  reflexivity.
Defined.

(** X4. The byteswap, absolute-load and indirect-load opcodes are
    declared as constants but have no case: executing any of them
    returns "unsupported opcode" and leaves the state as it was, and so
    does every other opcode without a case. *)
Theorem Execute_without_case (s : State) (instr : Instruction) :
  Opcode instr ∈ declared_without_case
  \/ dispatched (Opcode instr) = false ->
  Execute s instr = Ok (s, Some err_unsupported).
Proof.
  intros H.
  assert (Hd : dispatched (Opcode instr) = false).
  { destruct H as [Hin|Hd]; [|exact Hd].
    unfold declared_without_case in Hin.
    repeat (apply elem_of_cons in Hin as [->|Hin]; [reflexivity|]).
    now apply elem_of_nil in Hin. }
  unfold Execute.
  destruct (Opcode instr); try discriminate Hd; reflexivity.
Qed.

Lemma Execute_without_case_witness :
  Execute zero_State {| Opcode := BYTESWAP_BE64; Dst := 1; Src := 0;
                        Offset := 0; Imm := 64 |}
  = Ok (zero_State, Some err_unsupported).
Proof.
  apply Execute_without_case. left. cbn [Opcode].
  apply list_elem_of_In. simpl. tauto.
Defined.

(** ** The loop of [Interpret] *)

(** X5. The loop stops at the first exit instruction or opcode without
    a case that it fetches: the run ends there with the error, the
    state as it was before the instruction and the program counter
    still on it. *)
Theorem run_stops_on_error (fuel : nat) (program : list Instruction)
  (s : State) (instr : Instruction) :
  0 <= PC s -> program !! Z.to_nat (PC s) = Some instr ->
  (Opcode instr = BRANCH_EXIT ->
   run (S fuel) program s = Stopped err_exit s)
  /\ (dispatched (Opcode instr) = false ->
      run (S fuel) program s = Stopped err_unsupported s).
Proof.
  intros Hpc Hfetch.
  assert (Hlt : (PC s <? Z.of_nat (length program)) = true).
  { apply lookup_lt_Some in Hfetch. lia. }
  assert (Hf : fetch program (PC s) = Ok instr).
  { unfold fetch. replace (PC s <? 0) with false by lia. now rewrite Hfetch. }
  split; intros Hop; simpl; rewrite Hlt, Hf.
  - unfold Execute. rewrite Hop. reflexivity.
  - unfold Execute. destruct (Opcode instr); try discriminate Hop; reflexivity.
Qed.

Lemma run_stops_on_error_witness :
  let program := [ {| Opcode := ALU64_MOV_IMM; Dst := 0; Src := 0;
                      Offset := 0; Imm := 1 |};
                   {| Opcode := BRANCH_EXIT; Dst := 0; Src := 0;
                      Offset := 0; Imm := 0 |} ] in
  let s := set_PC zero_State 1 in
  run 1 program s = Stopped err_exit s.
Proof.
  intros program s.
  refine (proj1 (run_stops_on_error 0 program s _ _ _) _).
  - vm_compute. discriminate.
  - reflexivity.
  - reflexivity.
Defined.

(** X6. The loop condition tests the program counter against the
    length of the program only: once a jump has made it negative, the
    next fetch panics with an index out of range. *)
Theorem run_negative_pc (fuel : nat) (program : list Instruction) (s : State) :
  PC s < 0 -> run (S fuel) program s = Crashed IndexOutOfRange.
Proof.
  intros Hpc. simpl.
  assert (H1 : (PC s <? Z.of_nat (length program)) = true)
    by (apply Z.ltb_lt; lia).
  assert (H2 : (PC s <? 0) = true) by lia.
  unfold fetch. now rewrite H1, H2.
Qed.

Lemma run_negative_pc_witness :
  run 1 [] (set_PC zero_State (-1)) = Crashed IndexOutOfRange.
Proof. apply run_negative_pc. vm_compute. reflexivity. Defined.

(** X7. Nothing bounds the number of iterations: an unconditional jump
    with offset -1 brings the program counter back onto itself, and the
    loop uses up every step budget without the state ever changing. *)
Theorem run_self_jump_never_finishes (fuel : nat)
  (program : list Instruction) (s : State) (instr : Instruction) :
  0 <= PC s <= max_int64 ->
  program !! Z.to_nat (PC s) = Some instr ->
  Opcode instr = BRANCH_JA -> Offset instr = -1 ->
  run fuel program s = OutOfFuel s.
Proof.
  intros Hpc Hfetch Hop Hoff.
  assert (Hlt : (PC s <? Z.of_nat (length program)) = true).
  { apply lookup_lt_Some in Hfetch. lia. }
  assert (Hf : fetch program (PC s) = Ok instr).
  { unfold fetch. replace (PC s <? 0) with false by lia. now rewrite Hfetch. }
  assert (Hstep : Execute s instr = Ok (set_PC s (PC s - 1), None)).
  { unfold Execute, branch. rewrite Hop, Hoff. cbn [mbind Res_bind].
    unfold max_int64 in Hpc.
    rewrite (int64_small (-1))
      by (unfold in_int64, min_int64, max_int64; lia).
    rewrite int64_small
      by (unfold in_int64, min_int64, max_int64; lia).
    reflexivity. }
  assert (Hback : set_PC (set_PC s (PC s - 1))
                    (int64 (PC (set_PC s (PC s - 1)) + 1)) = s).
  { cbn [PC set_PC Memory Regs]. unfold max_int64 in Hpc.
    replace (PC s - 1 + 1) with (PC s) by lia.
    rewrite int64_small
      by (unfold in_int64, min_int64, max_int64; lia).
    now destruct s. }
  induction fuel as [|fuel IH]; simpl; rewrite Hlt; [reflexivity|].
  rewrite Hf, Hstep, Hback. exact IH.
Qed.

Lemma run_self_jump_never_finishes_witness :
  let program := [ {| Opcode := BRANCH_JA; Dst := 0; Src := 0;
                      Offset := -1; Imm := 0 |} ] in
  run 1000 program zero_State = OutOfFuel zero_State.
Proof.
  intros program.
  apply (run_self_jump_never_finishes 1000 program zero_State
           {| Opcode := BRANCH_JA; Dst := 0; Src := 0;
              Offset := -1; Imm := 0 |}).
  - vm_compute. split; discriminate.
  - reflexivity.
  - reflexivity.
  - reflexivity.
Defined.

(** The three classes of opcodes exclude one another. *)
Lemma writes_dst_not_jump (op : byte) :
  writes_dst op = true ->
  is_jump op = false /\ op <> BRANCH_CALL
  /\ forall w, mem_access op <> Some (Store, w).
Proof.
  destruct op; intros H; try discriminate H;
    repeat split; try reflexivity; try discriminate; intros w; discriminate.
Qed.

Lemma store_not_jump (op : byte) (w : Z) :
  mem_access op = Some (Store, w) ->
  is_jump op = false /\ writes_dst op = false.
Proof. destruct op; intros H; try discriminate H; split; reflexivity. Qed.

(** X8. A jump other than the call does nothing but move the program
    counter: registers and memory are as before, and the program
    counter is either unchanged (condition false) or advanced by the
    offset of the instruction. *)
Theorem jumps_only_move_pc (s s' : State) (instr : Instruction)
  (e : option error) :
  is_jump (Opcode instr) = true -> Opcode instr <> BRANCH_CALL ->
  Execute s instr = Ok (s', e) ->
  Regs s' = Regs s /\ Memory s' = Memory s
  /\ (PC s' = PC s \/ PC s' = int64 (PC s + int64 (Offset instr))).
Proof.
  intros Hj Hcall Hex. apply Execute_effect in Hex.
  destruct Hex as [| v Hw | _ | Hc | w a s' Hst _ _].
  - repeat split; now left.
  - apply writes_dst_not_jump in Hw as [Hw _]. congruence.
  - repeat split; now right.
  - contradiction.
  - apply store_not_jump in Hst as [Hst _]. congruence.
Qed.

Lemma jumps_only_move_pc_witness :
  let s := with_regs [0; 3; 0; 0; 0; 0; 0; 0; 0; 0; 0] in
  let instr := {| Opcode := BRANCH_JNE_IMM; Dst := 1; Src := 0;
                  Offset := 4; Imm := 0 |} in
  let s' := set_PC s 4 in
  Regs s' = Regs s /\ Memory s' = Memory s
  /\ (PC s' = PC s \/ PC s' = int64 (PC s + int64 (Offset instr))).
Proof.
  intros s instr s'.
  apply (jumps_only_move_pc s s' instr None).
  - reflexivity.
  - discriminate.
  - vm_compute. reflexivity.
Defined.



(** An instruction that is not a jump leaves the program counter
    alone. *)
Lemma not_jump_keeps_PC (s s' : State) (instr : Instruction)
  (e : option error) :
  is_jump (Opcode instr) = false ->
  Execute s instr = Ok (s', e) -> PC s' = PC s.
Proof.
  intros Hj Hex. apply Execute_effect in Hex.
  destruct Hex as [| v _ | Hj' | Hc | w a s' _ _ (_ & Hpc & _)];
    try reflexivity; try congruence.
  rewrite Hc in Hj. discriminate Hj.
Qed.

(** X10. A program without jumps and calls cannot loop: started inside
    the program, the run is over within as many steps as there are
    instructions left, and if it ends by running off the program, the
    program counter is the length of the program. *)
Theorem run_without_jumps_finishes (program : list Instruction) :
  (forall instr, instr ∈ program -> is_jump (Opcode instr) = false) ->
  Z.of_nat (length program) <= max_int64 ->
  forall fuel s,
    0 <= PC s <= Z.of_nat (length program) ->
    Z.of_nat (length program) - PC s <= Z.of_nat fuel ->
    match run fuel program s with
    | OutOfFuel _ => False
    | RanOff s' => PC s' = Z.of_nat (length program)
    | Stopped _ _ | Crashed _ => True
    end.
Proof.
  intros Hnj Hlen. unfold max_int64 in Hlen.
  induction fuel as [|fuel IH]; intros s Hpc Hfuel; simpl.
  - destruct (PC s <? _) eqn:E; lia.
  - destruct (PC s <? _) eqn:E; [|lia].
    unfold fetch. replace (PC s <? 0) with false by lia.
    destruct (program !! Z.to_nat (PC s)) as [instr|] eqn:Hfetch; [|exact I].
    destruct (Execute s instr) as [[s1 [e|]]|] eqn:Hex; try exact I.
    apply not_jump_keeps_PC in Hex;
      [|apply Hnj; eapply list_elem_of_lookup_2; exact Hfetch].
    assert (Hnext : int64 (PC s1 + 1) = PC s + 1).
    { rewrite Hex. apply int64_small.
      unfold in_int64, min_int64, max_int64. lia. }
    apply IH; cbn [PC set_PC]; rewrite Hnext; lia.
Qed.

Lemma run_without_jumps_finishes_witness :
  let program := [ {| Opcode := ALU64_MOV_IMM; Dst := 0; Src := 0;
                      Offset := 0; Imm := 1 |};
                   {| Opcode := ALU64_ADD_IMM; Dst := 0; Src := 0;
                      Offset := 0; Imm := 2 |} ] in
  match run 2 program zero_State with
  | OutOfFuel _ => False
  | RanOff s' => PC s' = Z.of_nat (length program)
  | Stopped _ _ | Crashed _ => True
  end.
Proof.
  intros program. apply run_without_jumps_finishes.
  - intros instr Hin. apply list_elem_of_In in Hin. simpl in Hin.
    destruct Hin as [<-|[<-|[]]]; reflexivity.
  - vm_compute. discriminate.
  - vm_compute. split; discriminate.
  - vm_compute. discriminate.
Defined.

(** ** Frames *)

(** X11. A store instruction that returns has changed nothing but the
    bytes it addresses: registers, program counter and memory size are
    as before, and so is every byte outside the [w] bytes at the
    effective address. *)
Theorem stores_frame (s s' : State) (instr : Instruction) (w a : Z)
  (e : option error) :
  mem_access (Opcode instr) = Some (Store, w) ->
  effective_address s instr = Ok a ->
  Execute s instr = Ok (s', e) ->
  store_frame s s' a w.
Proof.
  intros Hst Hea Hex. apply Execute_effect in Hex.
  destruct Hex as [| v Hw | Hj | Hc | w' a' s' Hst' Hea' Hframe].
  - repeat split; intros; reflexivity.
  - apply writes_dst_not_jump in Hw as (_ & _ & Hw). now apply Hw in Hst.
  - apply store_not_jump in Hst as [Hst _]. congruence.
  - rewrite Hc in Hst. discriminate Hst.
  - rewrite Hst in Hst'. injection Hst' as <-.
    rewrite Hea in Hea'. injection Hea' as <-. exact Hframe.
Qed.

Lemma stores_frame_witness :
  let s := {| Memory := [x01; x02; x03; x04; x05; x06];
              Regs := [0; 2; 0; 0; 0; 0; 0; 0; 0; 0; 0]; PC := 3 |} in
  let instr := {| Opcode := MEM_STH; Dst := 1; Src := 0;
                  Offset := 1; Imm := -1 |} in
  let s' := {| Memory := [x01; x02; x03; xff; xff; x06];
               Regs := [0; 2; 0; 0; 0; 0; 0; 0; 0; 0; 0]; PC := 3 |} in
  store_frame s s' 3 2.
Proof.
  intros s instr s'.
  apply (stores_frame s s' instr 2 3 None); vm_compute; reflexivity.
Defined.

(** X12. An arithmetic or load instruction that returns has changed
    nothing but its destination register: memory, program counter and
    every other register are as before. *)
Theorem writes_only_dst (s s' : State) (instr : Instruction)
  (e : option error) :
  writes_dst (Opcode instr) = true ->
  Execute s instr = Ok (s', e) ->
  Memory s' = Memory s /\ PC s' = PC s
  /\ forall j, j <> Dst instr -> get_reg s' j = get_reg s j.
Proof.
  intros Hw Hex. apply Execute_effect in Hex.
  destruct (writes_dst_not_jump _ Hw) as (Hj & Hcall & Hst).
  destruct Hex as [| v _ | Hj' | Hc | w a s' Hst' _ _].
  - repeat split; intros; reflexivity.
  - repeat split. intros j Hne. apply get_put_reg_ne. congruence.
  - congruence.
  - contradiction.
  - now apply Hst in Hst'.
Qed.

Lemma writes_only_dst_witness :
  let s := {| Memory := [x01; x02; x03; x04];
              Regs := [0; 2; 5; 0; 0; 0; 0; 0; 0; 0; 0]; PC := 3 |} in
  let instr := {| Opcode := ALU64_XOR_REG; Dst := 2; Src := 1;
                  Offset := 0; Imm := 0 |} in
  let s' := {| Memory := [x01; x02; x03; x04];
               Regs := [0; 2; 7; 0; 0; 0; 0; 0; 0; 0; 0]; PC := 3 |} in
  Memory s' = Memory s /\ PC s' = PC s
  /\ forall j, j <> Dst instr -> get_reg s' j = get_reg s j.
Proof.
  intros s instr s'.
  apply (writes_only_dst s s' instr None); vm_compute; reflexivity.
Defined.

(** ** The bytes that a store writes *)

Lemma put_le_lookup_at (n : nat) :
  forall mem a v k,
    (k < n)%nat -> (a + n <= length mem)%nat ->
    put_le n mem a v !! (a + k)%nat
    = Some (byte_of (Z.shiftr v (8 * Z.of_nat k))).
Proof.
  induction n as [|n IH]; intros mem a v k Hk Hlen; [lia|].
  simpl put_le. destruct k as [|k].
  - rewrite Nat.add_0_r, put_le_lookup_below by lia.
    rewrite list_lookup_insert_eq by lia. now rewrite Z.shiftr_0_r.
  - replace (a + S k)%nat with (S a + k)%nat by lia.
    rewrite IH by (rewrite ?length_insert; lia).
    rewrite Z.shiftr_shiftr by lia. do 3 f_equal. lia.
Qed.

Lemma byte_of_mod (x y : Z) : x mod 256 = y mod 256 -> byte_of x = byte_of y.
Proof.
  intros H. unfold byte_of, uint8, unsigned. change (2 ^ 8) with 256.
  now rewrite H.
Qed.

(** The bytes of a value below the width written are those of its
    stored part. *)
Lemma shiftr_stored_part (w v k : Z) :
  0 <= k < w ->
  Z.shiftr (stored_part w v) (8 * k) mod 256 = Z.shiftr v (8 * k) mod 256.
Proof.
  intros Hk. unfold stored_part. change 256 with (2 ^ 8).
  apply Z.bits_inj'. intros i Hi.
  destruct (Z_lt_le_dec i 8) as [Hlt|Hge].
  - rewrite !Z.mod_pow2_bits_low, !Z.shiftr_spec by lia.
    apply Z.mod_pow2_bits_low. lia.
  - now rewrite !Z.mod_pow2_bits_high by lia.
Qed.

Section InBounds.
Variable s : State.
Variables a v : Z.
Hypothesis Hwf : wf_State s.
Hypothesis Ha : in_int64 a.
Hypothesis H0 : 0 <= a.

(** The state after an in-bounds store of [n] bytes of [u]. *)
Lemma stored_state (n : nat) (u : Z) :
  a + Z.of_nat n <= mem_len s -> (0 < n)%nat ->
  let s' := set_Memory s (put_le n (Memory s) (Z.to_nat a) u) in
  PutUint n s a (int64 (a + Z.of_nat n)) u = Ok s'
  /\ wf_State s' /\ mem_len s' = mem_len s
  /\ ((a <? 0) || (mem_len s' <? int64 (a + Z.of_nat n))) = false
  /\ Uint n s' a (int64 (a + Z.of_nat n)) = Ok (u mod 2 ^ (8 * Z.of_nat n)).
Proof using Hwf Ha H0.
  intros Hin Hn s'.
  assert (Hlen : mem_len s' = mem_len s).
  { unfold mem_len, s'. cbn [Memory set_Memory]. now rewrite put_le_length. }
  assert (Hwf' : wf_State s').
  { destruct Hwf as [Hr Hm]. split; [exact Hr | now rewrite Hlen]. }
  unfold PutUint, Uint.
  rewrite (slice_ok_in_bounds s a (Z.of_nat n)),
    (slice_ok_in_bounds s' a (Z.of_nat n)) by (assumption || lia).
  cbn [mbind Res_bind].
  split; [reflexivity|]. split; [exact Hwf'|]. split; [exact Hlen|].
  split; [apply guard_passes; (assumption || lia)|].
  unfold s' at 1. cbn [Memory set_Memory].
  rewrite get_put_le by (unfold mem_len in Hin; lia). reflexivity.
Qed.
End InBounds.

Lemma signed_of_unsigned (bits v : Z) :
  signed bits (unsigned bits v) = signed bits v.
Proof. unfold signed, unsigned. now rewrite Zplus_mod_idemp_l. Qed.

Lemma int64_signed (bits v : Z) :
  0 < bits <= 64 -> int64 (signed bits v) = signed bits v.
Proof.
  intros Hb. apply int64_small.
  pose proof (signed_range bits v ltac:(lia)) as Hr.
  assert (2 ^ (bits - 1) <= 2 ^ 63) by (apply Z.pow_le_mono_r; lia).
  unfold in_int64, min_int64, max_int64. lia.
Qed.

Lemma storeByte_in_bounds (s : State) (a v : Z) :
  wf_State s -> in_int64 a -> 0 <= a -> a + 1 <= mem_len s ->
  let s' := set_Memory s (<[Z.to_nat a := byte_of v]> (Memory s)) in
  storeByte s a v = Ok (s', None)
  /\ loadByte s' a = Ok (signed 8 v).
Proof.
  intros Hwf Ha H0 Hin s'.
  assert (Hlen : mem_len s' = mem_len s).
  { unfold mem_len, s'. cbn [Memory set_Memory]. now rewrite length_insert. }
  assert (Hwf' : wf_State s').
  { destruct Hwf as [Hr Hm]. split; [exact Hr | now rewrite Hlen]. }
  unfold storeByte, loadByte, index_ok.
  rewrite (guard_passes s a 1), (guard_passes s' a 1) by (assumption || lia).
  rewrite Hlen.
  replace ((0 <=? a) && (a <? mem_len s)) with true
    by (symmetry; apply andb_true_iff; split; lia).
  cbn [mbind Res_bind]. split; [reflexivity|].
  unfold s'. cbn [Memory set_Memory].
  rewrite list_lookup_insert_eq by (unfold mem_len in Hin; lia).
  cbn [default from_option id]. rewrite byte_val_of.
  change (v mod 256) with (unsigned 8 v). unfold int8.
  rewrite signed_of_unsigned. now rewrite int64_signed by lia.
Qed.

(** X13. An in-bounds store writes its value least significant byte
    first: after a store of [w] bytes of [v] at [a], the byte at
    [a + k] holds bits [8k] to [8k + 7] of [v], for every [k] below
    [w]. *)
Theorem stores_are_little_endian (s : State) (a v w : Z) :
  wf_State s -> in_int64 a -> 0 <= a -> a + w <= mem_len s ->
  w = 1 \/ w = 2 \/ w = 4 \/ w = 8 ->
  exists s',
    store_helper w s a v = Ok (s', None)
    /\ forall k, 0 <= k < w ->
         Memory s' !! Z.to_nat (a + k) = Some (byte_of (Z.shiftr v (8 * k))).
Proof.
  intros Hwf Ha H0 Hin Hw.
  assert (Hput : forall (n : nat) u,
             (0 < n)%nat -> a + Z.of_nat n <= mem_len s ->
             u = stored_part (Z.of_nat n) v ->
             exists s',
               PutUint n s a (int64 (a + Z.of_nat n)) u = Ok s'
               /\ forall k, 0 <= k < Z.of_nat n ->
                    Memory s' !! Z.to_nat (a + k)
                    = Some (byte_of (Z.shiftr v (8 * k)))).
  { intros n u Hn Hin' ->.
    destruct (stored_state s a Hwf Ha H0 n (stored_part (Z.of_nat n) v) Hin' Hn)
      as (Hp & _).
    eexists. split; [exact Hp|].
    intros k Hk. cbn [Memory set_Memory].
    replace (Z.to_nat (a + k)) with (Z.to_nat a + Z.to_nat k)%nat by lia.
    rewrite put_le_lookup_at by (unfold mem_len in Hin'; lia).
    f_equal. apply byte_of_mod. rewrite Z2Nat.id by lia.
    now apply shiftr_stored_part. }
  destruct Hw as [-> | [-> | [-> | ->]]].
  - change (store_helper 1) with storeByte.
    destruct (storeByte_in_bounds s a v Hwf Ha H0 Hin) as [Hst _].
    eexists. split; [exact Hst|].
    intros k Hk. replace k with 0 by lia. cbn [Memory set_Memory].
    rewrite Z.add_0_r, list_lookup_insert_eq by (unfold mem_len in Hin; lia).
    reflexivity.
  - change (store_helper 2) with storeHalfWord. unfold storeHalfWord.
    rewrite (guard_passes s a 2) by (assumption || lia).
    destruct (Hput 2%nat (uint16 v)) as (s' & Hp & Hbytes);
      [lia | exact Hin | reflexivity |].
    change (Z.of_nat 2) with 2 in Hp. rewrite Hp.
    exists s'. split; [reflexivity | exact Hbytes].
  - change (store_helper 4) with storeWord. unfold storeWord.
    rewrite (guard_passes s a 4) by (assumption || lia).
    destruct (Hput 4%nat (uint32 v)) as (s' & Hp & Hbytes);
      [lia | exact Hin | reflexivity |].
    change (Z.of_nat 4) with 4 in Hp. rewrite Hp.
    exists s'. split; [reflexivity | exact Hbytes].
  - change (store_helper 8) with storeDoubleWord. unfold storeDoubleWord.
    rewrite (guard_passes s a 8) by (assumption || lia).
    destruct (Hput 8%nat (uint64 v)) as (s' & Hp & Hbytes);
      [lia | exact Hin | reflexivity |].
    change (Z.of_nat 8) with 8 in Hp. rewrite Hp.
    exists s'. split; [reflexivity | exact Hbytes].
Qed.

Lemma stores_are_little_endian_witness :
  let s := {| Memory := [x00; x00; x00; x00; x00; x00];
              Regs := replicate 11 0; PC := 0 |} in
  exists s',
    store_helper 4 s 1 0x11223344 = Ok (s', None)
    /\ forall k, 0 <= k < 4 ->
         Memory s' !! Z.to_nat (1 + k)
         = Some (byte_of (Z.shiftr 0x11223344 (8 * k))).
Proof.
  intros s. apply stores_are_little_endian.
  - split; [reflexivity | vm_compute; discriminate].
  - vm_compute. split; discriminate.
  - lia.
  - vm_compute. discriminate.
  - right. right. left. reflexivity.
Defined.

(** X14. Every width round-trips through the helpers: after an
    in-bounds store of [w] bytes of [v] at [a], the load of the same
    width at [a] returns the stored bytes of [v] - as an unsigned
    number for a word, sign-extended for a half-word, a byte and a
    double word. *)
Theorem store_then_load (s : State) (a v w : Z) :
  wf_State s -> in_int64 a -> 0 <= a -> a + w <= mem_len s ->
  w = 1 \/ w = 2 \/ w = 4 \/ w = 8 ->
  exists s',
    store_helper w s a v = Ok (s', None)
    /\ load_helper w s' a = Ok (reread w v).
Proof.
  intros Hwf Ha H0 Hin Hw.
  destruct Hw as [-> | [-> | [-> | ->]]].
  - change (store_helper 1) with storeByte. change (load_helper 1) with loadByte.
    destruct (storeByte_in_bounds s a v Hwf Ha H0 Hin) as [Hst Hld].
    eexists. split; [exact Hst | exact Hld].
  - change (store_helper 2) with storeHalfWord.
    change (load_helper 2) with loadHalfWord.
    unfold storeHalfWord, loadHalfWord.
    rewrite (guard_passes s a 2) by (assumption || lia).
    destruct (stored_state s a Hwf Ha H0 2 (uint16 v) Hin ltac:(lia))
      as (Hp & _ & _ & Hg & Hget).
    change (Z.of_nat 2) with 2 in Hp, Hg, Hget. rewrite Hp.
    eexists. split; [reflexivity|].
    rewrite Hg, Hget.
    cbn [mbind Res_bind]. f_equal.
    change (uint16 v mod 2 ^ (8 * 2)) with (unsigned 16 (unsigned 16 v)).
    unfold int16. rewrite !signed_of_unsigned. now apply int64_signed.
  - change (store_helper 4) with storeWord. change (load_helper 4) with loadWord.
    destruct (loadWord_storeWord s a v Hwf Ha H0 Hin)
      as (s' & Hst & _ & _ & _ & Hld).
    exists s'. split; [exact Hst | exact Hld].
  - change (store_helper 8) with storeDoubleWord.
    change (load_helper 8) with loadDoubleWord.
    unfold storeDoubleWord, loadDoubleWord.
    rewrite (guard_passes s a 8) by (assumption || lia).
    destruct (stored_state s a Hwf Ha H0 8 (uint64 v) Hin ltac:(lia))
      as (Hp & _ & _ & Hg & Hget).
    change (Z.of_nat 8) with 8 in Hp, Hg, Hget. rewrite Hp.
    eexists. split; [reflexivity|].
    rewrite Hg, Hget.
    cbn [mbind Res_bind]. f_equal.
    change (uint64 v mod 2 ^ (8 * 8)) with (unsigned 64 (unsigned 64 v)).
    unfold int64. now rewrite !signed_of_unsigned.
Qed.

Lemma store_then_load_witness :
  let s := {| Memory := [x00; x00; x00; x00];
              Regs := replicate 11 0; PC := 0 |} in
  exists s',
    store_helper 2 s 2 (-2) = Ok (s', None)
    /\ load_helper 2 s' 2 = Ok (reread 2 (-2)).
Proof.
  intros s. apply store_then_load.
  - split; [reflexivity | vm_compute; discriminate].
  - vm_compute. split; discriminate.
  - lia.
  - vm_compute. discriminate.
  - right. left. reflexivity.
Defined.

(** ** Arithmetic on wrapped integers *)

Lemma int64_sub_l (u i : Z) : int64 (int64 u - i) = int64 (u - i).
Proof.
  unfold int64, signed. f_equal.
  replace ((u + 2 ^ (64 - 1)) mod 2 ^ 64 - 2 ^ (64 - 1) - i + 2 ^ (64 - 1))
    with ((u + 2 ^ (64 - 1)) mod 2 ^ 64 - i) by lia.
  rewrite Zminus_mod_idemp_l. f_equal. lia.
Qed.

Lemma int64_opp (y : Z) : int64 (- int64 y) = int64 (- y).
Proof.
  unfold int64, signed. f_equal.
  replace (- ((y + 2 ^ (64 - 1)) mod 2 ^ 64 - 2 ^ (64 - 1)) + 2 ^ (64 - 1))
    with (2 ^ 64 - (y + 2 ^ (64 - 1)) mod 2 ^ 64) by lia.
  rewrite Zminus_mod_idemp_r.
  replace (2 ^ 64 - (y + 2 ^ (64 - 1))) with (- y + 2 ^ (64 - 1) + 0 * 2 ^ 64)
    by lia.
  now rewrite Z.mod_add by lia.
Qed.

(** Two assignments to the same register that end on the value it
    had leave the register file as it was. *)
Lemma insert_back (regs : list Z) (i : nat) (x y : Z) :
  regs !! i = Some x -> <[i := x]> (<[i := y]> regs) = regs.
Proof.
  intros Hx. rewrite list_insert_insert_eq. now apply list_insert_id.
Qed.

(** X15. Adding an immediate and then subtracting the same immediate
    restores the register, also when the sum wraps around: the state
    after the two instructions has the registers, memory and program
    counter of the state before. *)
Theorem add_then_sub_imm (s : State) (add sub : Instruction) (x : Z) :
  wf_State s -> (Dst add <= 10)%N ->
  Opcode add = ALU64_ADD_IMM -> Opcode sub = ALU64_SUB_IMM ->
  Dst sub = Dst add -> Imm sub = Imm add ->
  get_reg s (Dst add) = Ok x -> in_int64 x ->
  exists s1 s2,
    Execute s add = Ok (s1, None)
    /\ get_reg s1 (Dst add) = Ok (int64 (x + int64 (Imm add)))
    /\ Execute s1 sub = Ok (s2, None)
    /\ Regs s2 = Regs s /\ Memory s2 = Memory s /\ PC s2 = PC s.
Proof.
  intros Hwf Hd Hadd Hsub Hdst Himm Hx Hin.
  set (y := int64 (x + int64 (Imm add))).
  set (s1 := set_Regs s (<[N.to_nat (Dst add) := y]> (Regs s))).
  assert (Hwf1 : wf_State s1) by now apply wf_set_Regs.
  assert (Hy : get_reg s1 (Dst add) = Ok y) by now apply get_put_reg_eq.
  exists s1, (set_Regs s1 (<[N.to_nat (Dst add) := x]> (Regs s1))).
  split.
  { unfold Execute, assign_op, pure2. rewrite Hadd, Hx. cbn [mbind Res_bind].
    now rewrite (put_reg_in_range s _ _ Hwf Hd). }
  split; [exact Hy|]. split.
  { unfold Execute, assign_op, pure2. rewrite Hsub, Hdst, Himm, Hy.
    cbn [mbind Res_bind]. unfold y at 1.
    rewrite int64_sub_l.
    replace (x + int64 (Imm add) - int64 (Imm add)) with x by lia.
    rewrite (int64_small x Hin).
    now rewrite (put_reg_in_range s1 _ _ Hwf1 Hd). }
  cbn [Regs Memory PC set_Regs s1]. repeat split.
  apply insert_back. unfold get_reg in Hx.
  destruct (Regs s !! N.to_nat (Dst add)); congruence.
Qed.

Lemma add_then_sub_imm_witness :
  let s := with_regs [0; 9223372036854775807; 0; 0; 0; 0; 0; 0; 0; 0; 0] in
  let add := {| Opcode := ALU64_ADD_IMM; Dst := 1; Src := 0;
                Offset := 0; Imm := 5 |} in
  let sub := {| Opcode := ALU64_SUB_IMM; Dst := 1; Src := 0;
                Offset := 0; Imm := 5 |} in
  exists s1 s2,
    Execute s add = Ok (s1, None)
    /\ get_reg s1 (Dst add)
       = Ok (int64 (9223372036854775807 + int64 (Imm add)))
    /\ Execute s1 sub = Ok (s2, None)
    /\ Regs s2 = Regs s /\ Memory s2 = Memory s /\ PC s2 = PC s.
Proof.
  intros s add sub.
  apply (add_then_sub_imm s add sub 9223372036854775807);
    try reflexivity.
  - split; [reflexivity | vm_compute; discriminate].
  - vm_compute. discriminate.
  - vm_compute. split; discriminate.
Defined.

(** X16. Negation is its own inverse on every 64-bit value, the
    smallest one included (which negates to itself): two negate
    instructions on the same register restore the state. *)
Theorem neg_twice (s : State) (instr : Instruction) (x : Z) :
  wf_State s -> (Dst instr <= 10)%N -> Opcode instr = ALU64_NEG ->
  get_reg s (Dst instr) = Ok x -> in_int64 x ->
  exists s1 s2,
    Execute s instr = Ok (s1, None)
    /\ get_reg s1 (Dst instr) = Ok (if x =? min_int64 then x else - x)
    /\ Execute s1 instr = Ok (s2, None)
    /\ Regs s2 = Regs s /\ Memory s2 = Memory s /\ PC s2 = PC s.
Proof.
  intros Hwf Hd Hop Hx Hin.
  set (y := int64 (- x)).
  set (s1 := set_Regs s (<[N.to_nat (Dst instr) := y]> (Regs s))).
  assert (Hwf1 : wf_State s1) by now apply wf_set_Regs.
  assert (Hy : get_reg s1 (Dst instr) = Ok y) by now apply get_put_reg_eq.
  exists s1, (set_Regs s1 (<[N.to_nat (Dst instr) := x]> (Regs s1))).
  split.
  { unfold Execute, assign. rewrite Hop, Hx. cbn [mbind Res_bind].
    now rewrite (put_reg_in_range s _ _ Hwf Hd). }
  split.
  { rewrite Hy. f_equal. unfold y.
    unfold in_int64, min_int64, max_int64 in Hin. unfold min_int64.
    destruct (x =? - 2 ^ 63) eqn:E.
    - apply Z.eqb_eq in E. subst x. reflexivity.
    - apply int64_small. unfold in_int64, min_int64, max_int64. lia. }
  split.
  { unfold Execute, assign. rewrite Hop, Hy. cbn [mbind Res_bind].
    unfold y at 1. rewrite int64_opp, Z.opp_involutive, (int64_small x Hin).
    now rewrite (put_reg_in_range s1 _ _ Hwf1 Hd). }
  cbn [Regs Memory PC set_Regs s1]. repeat split.
  apply insert_back. unfold get_reg in Hx.
  destruct (Regs s !! N.to_nat (Dst instr)); congruence.
Qed.

Lemma neg_twice_witness :
  let s := with_regs [0; 0; -9223372036854775808; 0; 0; 0; 0; 0; 0; 0; 0] in
  let instr := {| Opcode := ALU64_NEG; Dst := 2; Src := 0;
                  Offset := 0; Imm := 0 |} in
  exists s1 s2,
    Execute s instr = Ok (s1, None)
    /\ get_reg s1 (Dst instr)
       = Ok (if -9223372036854775808 =? min_int64
             then -9223372036854775808 else - -9223372036854775808)
    /\ Execute s1 instr = Ok (s2, None)
    /\ Regs s2 = Regs s /\ Memory s2 = Memory s /\ PC s2 = PC s.
Proof.
  intros s instr.
  apply (neg_twice s instr (-9223372036854775808)); try reflexivity.
  - split; [reflexivity | vm_compute; discriminate].
  - vm_compute. discriminate.
  - vm_compute. split; discriminate.
Defined.

(** ** Edge cases of the arithmetic *)

(** X17. A shift count is not reduced modulo 64: with an immediate
    that is negative (read as a huge unsigned count) or at least 64,
    left shift and the "arithmetic" right shift clear the register,
    and the plain right shift leaves only the sign, 0 or -1. *)
Theorem shift_count_out_of_range (s : State) (instr : Instruction) (x : Z) :
  wf_State s -> wf_Instruction instr -> (Dst instr <= 10)%N ->
  get_reg s (Dst instr) = Ok x ->
  Imm instr < 0 \/ 64 <= Imm instr ->
  let result v := Ok (set_Regs s (<[N.to_nat (Dst instr) := v]> (Regs s)), None) in
  (Opcode instr = ALU64_LSH_IMM -> Execute s instr = result 0)
  /\ (Opcode instr = ALU64_RSH_IMM ->
      Execute s instr = result (if x <? 0 then -1 else 0))
  /\ (Opcode instr = ALU64_ARSH_IMM -> Execute s instr = result 0).
Proof.
  intros Hwf (_ & _ & _ & Himm) Hd Hx Hcount result.
  unfold in_int32 in Himm.
  assert (Hc : (64 <=? uint64 (Imm instr)) = true).
  { apply Z.leb_le. unfold uint64, unsigned.
    destruct Hcount as [Hneg|Hbig].
    - rewrite <- (Z.mod_add _ 1 (2 ^ 64)) by lia. rewrite Z.mod_small; lia.
    - rewrite Z.mod_small; lia. }
  unfold result.
  repeat split; intros Hop;
    unfold Execute, assign_op, assign, pure2, shl64, sar64, shr64_via_uint64;
    rewrite Hop, Hx; cbn [mbind Res_bind]; rewrite Hc;
    now rewrite (put_reg_in_range s _ _ Hwf Hd).
Qed.

Lemma shift_count_out_of_range_witness :
  let s := with_regs [0; -8; 0; 0; 0; 0; 0; 0; 0; 0; 0] in
  let instr := {| Opcode := ALU64_RSH_IMM; Dst := 1; Src := 0;
                  Offset := 0; Imm := -1 |} in
  Execute s instr = Ok (with_regs [0; -1; 0; 0; 0; 0; 0; 0; 0; 0; 0], None).
Proof.
  intros s instr.
  refine (proj1 (proj2 (shift_count_out_of_range s instr (-8) _ _ _ _ _)) _).
  - split; [reflexivity | vm_compute; discriminate].
  - vm_compute. repeat split; (reflexivity || discriminate).
  - vm_compute. discriminate.
  - reflexivity.
  - left. vm_compute. reflexivity.
  - reflexivity.
Defined.

(** X18. The bounds guard of the helpers adds the width in [int64]:
    for an effective address so large that address plus width passes
    the largest [int64], the guard does not fire and the access
    panics. *)
Theorem address_overflow_panics (s : State) (instr : Instruction) :
  wf_State s -> (Dst instr <= 10)%N -> (Src instr <= 10)%N ->
  address_overflow s instr ->
  exists p, Execute s instr = Panic p.
Proof.
  intros Hwf Hd Hs (k & w & a & Hacc & Hea & Hov).
  now apply (overflowing_access_panics s instr k w a).
Qed.

Lemma address_overflow_panics_witness :
  let s := with_regs [0; 9223372036854775806; 0; 0; 0; 0; 0; 0; 0; 0; 0] in
  let instr := {| Opcode := MEM_LDXW; Dst := 2; Src := 1;
                  Offset := 0; Imm := 0 |} in
  exists p, Execute s instr = Panic p.
Proof.
  intros s instr. apply address_overflow_panics.
  - split; [reflexivity | vm_compute; discriminate].
  - vm_compute. discriminate.
  - vm_compute. discriminate.
  - exists Load, 4, 9223372036854775806.
    repeat split; vm_compute; reflexivity.
Defined.

Lemma quot_in_int64 (x y : Z) :
  in_int64 x -> y <> 0 -> ~ (x = min_int64 /\ y = -1) ->
  in_int64 (Z.quot x y).
Proof.
  unfold in_int64, min_int64, max_int64. intros Hx Hy Hno.
  destruct (Z.eq_dec y 1) as [->|H1]; [rewrite Z.quot_1_r; lia|].
  destruct (Z.eq_dec y (-1)) as [->|H2].
  { change (-1) with (- (1)). rewrite Z.quot_opp_r, Z.quot_1_r by lia. lia. }
  assert (Habs : Z.abs (Z.quot x y) <= 2 ^ 62).
  { rewrite <- Z.quot_abs by exact Hy.
    rewrite Z.quot_div_nonneg by lia.
    apply Z.div_le_upper_bound; lia. }
  lia.
Qed.

(** X19. Division and modulo by a nonzero immediate truncate towards
    zero (the quotient and remainder of [Z.quot] and [Z.rem]); the one
    quotient that does not fit, the smallest 64-bit value divided by
    -1, wraps to the dividend instead of panicking, its remainder
    being 0. *)
Theorem div_mod_imm (s : State) (instr : Instruction) (x : Z) :
  wf_State s -> wf_Instruction instr -> (Dst instr <= 10)%N ->
  get_reg s (Dst instr) = Ok x -> in_int64 x -> Imm instr <> 0 ->
  let result v := Ok (set_Regs s (<[N.to_nat (Dst instr) := v]> (Regs s)), None) in
  (Opcode instr = ALU64_DIV_IMM ->
   Execute s instr =
   result (if (x =? min_int64) && (Imm instr =? -1) then min_int64
           else Z.quot x (Imm instr)))
  /\ (Opcode instr = ALU64_MOD_IMM ->
      Execute s instr = result (Z.rem x (Imm instr))).
Proof.
  intros Hwf (_ & _ & _ & Himm) Hd Hx Hin Hnz result.
  unfold in_int32 in Himm.
  assert (Hi : int64 (Imm instr) = Imm instr).
  { apply int64_small. unfold in_int64, min_int64, max_int64. lia. }
  assert (Hz : (Imm instr =? 0) = false) by lia.
  assert (Hq : int64 (Z.quot x (Imm instr))
               = if (x =? min_int64) && (Imm instr =? -1) then min_int64
                 else Z.quot x (Imm instr)).
  { destruct ((x =? min_int64) && (Imm instr =? -1)) eqn:E.
    - apply andb_true_iff in E as [E1 E2].
      apply Z.eqb_eq in E1, E2. rewrite E1, E2. reflexivity.
    - apply int64_small, quot_in_int64; [exact Hin | exact Hnz |].
      intros [E1 E2]. rewrite E1, E2 in E. discriminate E. }
  assert (Hr : int64 (Z.rem x (Imm instr)) = Z.rem x (Imm instr)).
  { apply int64_small.
    pose proof (Z.rem_bound_abs x (Imm instr) Hnz).
    unfold in_int64, min_int64, max_int64. lia. }
  unfold result.
  split; intros Hop;
    unfold Execute, assign_op, quo, rem; rewrite Hop, Hx;
    cbn [mbind Res_bind]; rewrite Hi, Hz; cbn [mbind Res_bind];
    rewrite ?Hq, ?Hr, (put_reg_in_range s _ _ Hwf Hd); reflexivity.
Qed.

Lemma div_mod_imm_witness :
  let s := with_regs [0; -9223372036854775808; 0; 0; 0; 0; 0; 0; 0; 0; 0] in
  let instr := {| Opcode := ALU64_DIV_IMM; Dst := 1; Src := 0;
                  Offset := 0; Imm := -1 |} in
  Execute s instr = Ok (s, None).
Proof.
  intros s instr.
  refine (proj1 (div_mod_imm s instr (-9223372036854775808) _ _ _ _ _ _) _).
  - split; [reflexivity | vm_compute; discriminate].
  - vm_compute. repeat split; (reflexivity || discriminate).
  - vm_compute. discriminate.
  - reflexivity.
  - vm_compute. split; discriminate.
  - discriminate.
  - reflexivity.
Defined.

(** ** The decoder loses nothing *)

Lemma byte_val_inj (b c : byte) : byte_val b = byte_val c -> b = c.
Proof.
  unfold byte_val. intros H. apply N2Z.inj in H.
  pose proof (Byte.of_to_N b) as Hb. rewrite H, Byte.of_to_N in Hb.
  congruence.
Qed.

Lemma sign_extend_inj (bits u u' : Z) :
  0 < bits -> 0 <= u < 2 ^ bits -> 0 <= u' < 2 ^ bits ->
  sign_extend bits u = sign_extend bits u' -> u = u'.
Proof.
  intros Hb Hu Hu'. unfold sign_extend.
  assert (H2 : 2 ^ bits = 2 * 2 ^ (bits - 1)).
  { rewrite <- Z.pow_succ_r by lia. f_equal. lia. }
  destruct (u <? 2 ^ (bits - 1)) eqn:E; destruct (u' <? 2 ^ (bits - 1)) eqn:E';
    lia.
Qed.

(** Two slots with the same record have the same eight bytes. *)
Lemma Instruction_of_bytes_inj (b0 b1 b2 b3 b4 b5 b6 b7 : byte)
  (c0 c1 c2 c3 c4 c5 c6 c7 : byte) :
  Instruction_of_bytes b0 b1 b2 b3 b4 b5 b6 b7
  = Instruction_of_bytes c0 c1 c2 c3 c4 c5 c6 c7 ->
  [b0; b1; b2; b3; b4; b5; b6; b7] = [c0; c1; c2; c3; c4; c5; c6; c7].
Proof.
  rewrite !Instruction_of_bytes_layout. unfold slot_record.
  intros [= H0 Hd Hs Hoff Himm].
  assert (H1 : b1 = c1).
  { pose proof (N.div_mod (Byte.to_N b1) 16 ltac:(discriminate)) as Hb.
    pose proof (N.div_mod (Byte.to_N c1) 16 ltac:(discriminate)) as Hc.
    rewrite Hd, Hs in Hb. rewrite <- Hc in Hb.
    pose proof (Byte.of_to_N b1) as Hb1. rewrite Hb, Byte.of_to_N in Hb1.
    congruence. }
  pose proof (byte_val_range b2). pose proof (byte_val_range b3).
  pose proof (byte_val_range b4). pose proof (byte_val_range b5).
  pose proof (byte_val_range b6). pose proof (byte_val_range b7).
  pose proof (byte_val_range c2). pose proof (byte_val_range c3).
  pose proof (byte_val_range c4). pose proof (byte_val_range c5).
  pose proof (byte_val_range c6). pose proof (byte_val_range c7).
  apply sign_extend_inj in Hoff;
    [| lia | apply (le_value_range [b2; b3]) | apply (le_value_range [c2; c3])].
  apply sign_extend_inj in Himm;
    [| lia | apply (le_value_range [b4; b5; b6; b7])
     | apply (le_value_range [c4; c5; c6; c7])].
  unfold le_value in Hoff, Himm. simpl foldr in Hoff, Himm.
  assert (byte_val b2 = byte_val c2) by lia.
  assert (byte_val b3 = byte_val c3) by lia.
  assert (byte_val b4 = byte_val c4) by lia.
  assert (byte_val b5 = byte_val c5) by lia.
  assert (byte_val b6 = byte_val c6) by lia.
  assert (byte_val b7 = byte_val c7) by lia.
  repeat f_equal; (assumption || now apply byte_val_inj).
Qed.

(** What a successful decoding says about its input. *)
Lemma decode_Ok_inv (bytecode : list byte) (program : list Instruction) :
  decode bytecode = Ok program ->
  length bytecode = (8 * length program)%nat
  /\ forall k, (k < length program)%nat ->
       exists b0 b1 b2 b3 b4 b5 b6 b7,
         take 8 (drop (8 * k) bytecode) = [b0; b1; b2; b3; b4; b5; b6; b7]
         /\ program !! k = Some (Instruction_of_bytes b0 b1 b2 b3 b4 b5 b6 b7).
Proof.
  intros Hdec.
  set (slots := (length bytecode / 8)%nat).
  set (rest := (length bytecode mod 8)%nat).
  assert (Hlength : length bytecode = (8 * slots + rest)%nat)
    by apply Nat.div_mod_eq.
  assert (Hrest : (rest < 8)%nat) by (apply Nat.mod_upper_bound; lia).
  destruct (Nat.eq_dec rest 0%nat) as [Hr|Hr].
  - destruct (decode_loop_whole bytecode slots rest Hlength Hrest slots Hr
                0%nat (replicate slots zero_Instruction))
      as (program' & Hloop & Hlen & _ & Hfrom);
      [lia | lia | apply length_replicate |].
    unfold decode in Hdec. fold slots in Hdec.
    change (8 * 0)%nat with 0%nat in Hloop.
    rewrite Hloop in Hdec. injection Hdec as <-.
    split; [lia|]. intros k Hk.
    destruct (slot_exists bytecode (8 * k))
      as (b0 & b1 & b2 & b3 & b4 & b5 & b6 & b7 & Hslot); [lia|].
    exists b0, b1, b2, b3, b4, b5, b6, b7. split; [exact Hslot|].
    apply Hfrom; [lia|]. now apply decode_at_slot.
  - unfold decode in Hdec. fold slots in Hdec.
    pose proof (decode_loop_partial bytecode slots rest Hlength Hrest slots
                  ltac:(lia) 0%nat (replicate slots zero_Instruction)
                  ltac:(lia) ltac:(lia) (length_replicate _ _)) as Hp.
    change (8 * 0)%nat with 0%nat in Hp.
    rewrite Hp in Hdec. discriminate Hdec.
Qed.

(** X20. Decoding is injective: two inputs that decode to the same
    program are the same byte sequence, so the instruction records
    keep every bit of the bytecode. *)
Theorem decode_injective (bytecode1 bytecode2 : list byte)
  (program : list Instruction) :
  decode bytecode1 = Ok program -> decode bytecode2 = Ok program ->
  bytecode1 = bytecode2.
Proof.
  intros H1 H2.
  apply decode_Ok_inv in H1 as [Hlen1 Hslots1].
  apply decode_Ok_inv in H2 as [Hlen2 Hslots2].
  apply list_eq. intros i.
  destruct (decide (i < length bytecode1)%nat) as [Hi|Hi].
  - set (k := (i / 8)%nat). set (j := (i mod 8)%nat).
    assert (Hij : i = (8 * k + j)%nat) by apply Nat.div_mod_eq.
    assert (Hj : (j < 8)%nat) by (apply Nat.mod_upper_bound; lia).
    destruct (Hslots1 k) as (b0 & b1 & b2 & b3 & b4 & b5 & b6 & b7 & Hb & Hpb);
      [lia|].
    destruct (Hslots2 k) as (c0 & c1 & c2 & c3 & c4 & c5 & c6 & c7 & Hc & Hpc);
      [lia|].
    rewrite Hpb in Hpc. apply (inj Some) in Hpc.
    apply Instruction_of_bytes_inj in Hpc.
    rewrite Hij, <- !lookup_drop.
    rewrite <- (lookup_take_lt (drop (8 * k) bytecode1) 8 j) by exact Hj.
    rewrite <- (lookup_take_lt (drop (8 * k) bytecode2) 8 j) by exact Hj.
    now rewrite Hb, Hc, Hpc.
  - rewrite !lookup_ge_None_2 by lia. reflexivity.
Qed.

Lemma decode_injective_witness :
  main_bytecode = main_bytecode.
Proof.
  apply (decode_injective main_bytecode main_bytecode
           [ {| Opcode := ALU64_MOV_IMM; Dst := 1; Src := 0;
                Offset := 0; Imm := 5 |};
             {| Opcode := ALU64_MOV_IMM; Dst := 2; Src := 0;
                Offset := 0; Imm := 9 |};
             {| Opcode := ALU64_ADD_REG; Dst := 1; Src := 2;
                Offset := 2; Imm := 0 |};
             {| Opcode := ALU64_MOV_REG; Dst := 0; Src := 1;
                Offset := 0; Imm := 0 |};
             {| Opcode := ALU64_SUB_IMM; Dst := 0; Src := 0;
                Offset := 0; Imm := 3 |};
             {| Opcode := BRANCH_EXIT; Dst := 0; Src := 0;
                Offset := 0; Imm := 0 |} ]);
    vm_compute; reflexivity.
Defined.

(** ** Jumps in the loop *)

(** X21. Offsets count from the instruction after the jump: one
    iteration of the loop on an unconditional jump at index [p] with
    offset [o] continues at index [p + o + 1], with registers and
    memory untouched. *)
Theorem run_jump_always (fuel : nat) (program : list Instruction)
  (s : State) (instr : Instruction) :
  0 <= PC s -> in_int64 (PC s + Offset instr + 1) ->
  program !! Z.to_nat (PC s) = Some instr ->
  Opcode instr = BRANCH_JA -> - 2 ^ 15 <= Offset instr < 2 ^ 15 ->
  run (S fuel) program s
  = run fuel program (set_PC s (PC s + Offset instr + 1)).
Proof.
  intros Hpc Hin Hfetch Hop Hoff.
  unfold in_int64, min_int64, max_int64 in Hin.
  assert (Hlt : (PC s <? Z.of_nat (length program)) = true).
  { apply lookup_lt_Some in Hfetch. lia. }
  assert (Hf : fetch program (PC s) = Ok instr).
  { unfold fetch. replace (PC s <? 0) with false by lia. now rewrite Hfetch. }
  simpl. rewrite Hlt, Hf.
  unfold Execute, branch. rewrite Hop. cbn [mbind Res_bind PC set_PC].
  rewrite (int64_small (Offset instr))
    by (unfold in_int64, min_int64, max_int64; lia).
  rewrite (int64_small (PC s + Offset instr))
    by (unfold in_int64, min_int64, max_int64; lia).
  rewrite int64_small by (unfold in_int64, min_int64, max_int64; lia).
  reflexivity.
Qed.

Lemma run_jump_always_witness :
  let program := [ {| Opcode := BRANCH_JA; Dst := 0; Src := 0;
                      Offset := 1; Imm := 0 |};
                   {| Opcode := ALU64_MOV_IMM; Dst := 0; Src := 0;
                      Offset := 0; Imm := 7 |};
                   {| Opcode := BRANCH_EXIT; Dst := 0; Src := 0;
                      Offset := 0; Imm := 0 |} ] in
  run 2 program zero_State = run 1 program (set_PC zero_State (0 + 1 + 1)).
Proof.
  intros program.
  apply (run_jump_always 1 program zero_State
           {| Opcode := BRANCH_JA; Dst := 0; Src := 0;
              Offset := 1; Imm := 0 |}).
  - vm_compute. discriminate.
  - vm_compute. split; discriminate.
  - reflexivity.
  - reflexivity.
  - vm_compute. split; [discriminate | reflexivity].
Defined.

(** X22. The call instruction never touches the register selectors of
    the instruction: on every well-formed state, whatever dst, src and
    the immediate are, it writes the index of the next instruction to
    register 8, moves the program counter by the offset, and leaves
    memory and the other registers as they were. *)
Theorem call_links_r8 (s : State) (instr : Instruction) :
  wf_State s -> Opcode instr = BRANCH_CALL ->
  exists s',
    Execute s instr = Ok (s', None)
    /\ get_reg s' 8 = Ok (int64 (int64 (PC s + 1)))
    /\ PC s' = int64 (PC s + int64 (Offset instr))
    /\ Memory s' = Memory s
    /\ forall j, j <> 8%N -> get_reg s' j = get_reg s j.
Proof.
  intros Hwf Hop.
  eexists. split.
  { unfold Execute. rewrite Hop.
    rewrite (put_reg_in_range s 8 _ Hwf ltac:(lia)).
    cbn [mbind Res_bind]. reflexivity. }
  cbn [PC Memory set_PC set_Regs].
  split; [exact (get_put_reg_eq s 8 _ Hwf ltac:(lia))|].
  split; [reflexivity|]. split; [reflexivity|].
  intros j Hj. apply (get_put_reg_ne s 8 j). congruence.
Qed.

Lemma call_links_r8_witness :
  let s := set_PC zero_State 4 in
  let instr := {| Opcode := BRANCH_CALL; Dst := 15; Src := 15;
                  Offset := -2; Imm := 99 |} in
  exists s',
    Execute s instr = Ok (s', None)
    /\ get_reg s' 8 = Ok (int64 (int64 (PC s + 1)))
    /\ PC s' = int64 (PC s + int64 (Offset instr))
    /\ Memory s' = Memory s
    /\ forall j, j <> 8%N -> get_reg s' j = get_reg s j.
Proof.
  intros s instr. apply call_links_r8.
  - split; [reflexivity | vm_compute; discriminate].
  - reflexivity.
Defined.

(** X23. On the empty input nothing is decoded and nothing runs: for
    every step budget the run ends at once by running off the (empty)
    program, in the zero state. *)
Theorem Interpret_empty (fuel : nat) : Interpret fuel [] = RanOff zero_State.
Proof.
  unfold Interpret.
  replace (decode []) with (@Ok (list Instruction) []) by (vm_compute; reflexivity).
  now destruct fuel.
Qed.
